(** * urql-computed-exchange: the [@computed] directive rewriters

    A shallow embedding of [src/directive-utils.ts] and the properties of
    its two entry points, [replaceDirectivesByFragments] (replace-mode) and
    [addFragmentsFromDirectives] (augment-mode).

    Modelling conventions.
    - AST nodes are the executable-document nodes of graphql-js, as its
      parser builds them: [arguments] and [directives] are always arrays,
      [loc] is left out, a [Name] node is its string.
    - A JavaScript object used as a dictionary ([entities], [fields], the
      accumulator of the grouping [reduce]) is a finite map over its own
      keys; names inherited from [Object.prototype] are outside the
      model.  Response keys are GraphQL names, never array indices, so
      [Object.values] lists them in insertion order.
    - [visit] is the traversal of graphql-js restricted to the callbacks
      the two rewriters install; a callback result that is not a node (an
      array) is stored in the parent and not descended into.
    - [throw] and runtime [TypeError]s are results of type [result]; the
      recursion through the registry, which need not terminate, takes
      fuel.
    - Trees are values.  The second pass assigns [node.selections] in
      place, on nodes the first pass may share with the input and the
      registry; the model gives the tree a call returns, not the state
      of its arguments afterwards. *)

From Stdlib Require Import String List Arith Lia Bool.
From stdpp Require Import gmap strings list.
Import ListNotations.
Open Scope string_scope.
Open Scope list_scope.
Set Warnings "-register-all".

(** ** Results of a call that may throw *)

Inductive error :=
| NoTypeSpecified
    (* Error('Invalid @computed directive found. No type specified') *)
| NoEntityFound (directiveType : string)
    (* Error(`No entity found for type ...`) *)
| NoResolverFound (fieldName directiveType : string)
    (* Error(`No resolver found for @computed directive ... in type ...`) *)
| TypeError (property : string)
    (* raised by the runtime: [property] read on null or undefined *).

Inductive result (A : Type) :=
| Ok (a : A)
| Throw (e : error)
| OutOfFuel.
Arguments Ok {A} a.
Arguments Throw {A} e.
Arguments OutOfFuel {A}.

Definition bind {A B} (r : result A) (k : A -> result B) : result B :=
  match r with
  | Ok a => k a
  | Throw e => Throw e
  | OutOfFuel => OutOfFuel
  end.

Notation "'let*' x ':=' r 'in' k" := (bind r (fun x => k))
  (at level 10, x name, r at level 100, k at level 200).

Fixpoint mapM {A B} (f : A -> result B) (l : list A) : result (list B) :=
  match l with
  | [] => Ok []
  | x :: xs => let* y := f x in let* ys := mapM f xs in Ok (y :: ys)
  end.

Definition isOk {A} (r : result A) : bool :=
  match r with Ok _ => true | _ => false end.

(** ** The document tree *)

Inductive ValueNode :=
| Variable_ (name : string)   (* kind Variable *)
| IntValue (value : string)
| FloatValue (value : string)
| StringValue (value : string)
| BooleanValue (value : bool)
| NullValue
| EnumValue (value : string)
| ListValue (values : list ValueNode)
| ObjectValue (fields : list (string * ValueNode)).

Record ArgumentNode := {
  argument_name : string;
  argument_value : ValueNode
}.

Record DirectiveNode := {
  directive_name : string;
  directive_arguments : list ArgumentNode
}.

(** A member of a [selections] array.  [Arr] is an array sitting where a
    node is expected: what the first pass leaves in place of a field it
    replaced by several nodes. *)
Inductive Selection :=
| Field (alias : option string) (name : string)
        (arguments : list ArgumentNode) (directives : list DirectiveNode)
        (selectionSet : option (list Selection))
| FragmentSpread (name : string) (directives : list DirectiveNode)
| InlineFragment (typeCondition : option string)
        (directives : list DirectiveNode) (selectionSet : list Selection)
| Arr (items : list Selection).

(** The view of a [Field] constructor as the object the callbacks get. *)
Record FieldNode := {
  alias : option string;
  name : string;
  arguments : list ArgumentNode;
  directives : list DirectiveNode;
  selectionSet : option (list Selection)
}.

Definition ofField (f : FieldNode) : Selection :=
  Field (alias f) (name f) (arguments f) (directives f) (selectionSet f).

Definition asField (s : Selection) : option FieldNode :=
  match s with
  | Field a n args ds ss =>
      Some {| alias := a; name := n; arguments := args;
              directives := ds; selectionSet := ss |}
  | _ => None
  end.

Definition isField (s : Selection) : bool :=
  match s with Field _ _ _ _ _ => true | _ => false end.

(** Induction over selections and the selections below them. *)
Section SelectionInduction.
Variable P : Selection -> Prop.
Hypothesis P_leaf : forall a nm args ds, P (Field a nm args ds None).
Hypothesis P_field :
  forall a nm args ds sels,
    List.Forall P sels -> P (Field a nm args ds (Some sels)).
Hypothesis P_spread : forall nm ds, P (FragmentSpread nm ds).
Hypothesis P_inline :
  forall tc ds sels, List.Forall P sels -> P (InlineFragment tc ds sels).
Hypothesis P_arr : forall items, List.Forall P items -> P (Arr items).

Fixpoint Selection_nested_ind (s : Selection) : P s :=
  let all :=
    fix all (l : list Selection) : List.Forall P l :=
      match l with
      | [] => @List.Forall_nil _ P
      | x :: l' =>
          @List.Forall_cons _ P x l' (Selection_nested_ind x) (all l')
      end in
  match s with
  | Field a nm args ds None => P_leaf a nm args ds
  | Field a nm args ds (Some sels) => P_field a nm args ds sels (all sels)
  | FragmentSpread nm ds => P_spread nm ds
  | InlineFragment tc ds sels => P_inline tc ds sels (all sels)
  | Arr items => P_arr items (all items)
  end.
End SelectionInduction.

Inductive TypeNode :=
| NamedType (name : string)
| ListType (type : TypeNode)
| NonNullType (type : TypeNode).

Record VariableDefinitionNode := {
  variable : string;
  variable_type : TypeNode;
  defaultValue : option ValueNode;
  variable_directives : list DirectiveNode
}.

Inductive OperationType := query | mutation | subscription.

Inductive DefinitionNode :=
| OperationDefinition (operation : OperationType) (name : option string)
    (variableDefinitions : list VariableDefinitionNode)
    (directives : list DirectiveNode) (selectionSet : list Selection)
| FragmentDefinition (name : string)
    (variableDefinitions : list VariableDefinitionNode)
    (typeCondition : string)
    (directives : list DirectiveNode) (selectionSet : list Selection).

Record DocumentNode := { definitions : list DefinitionNode }.

(** [DefinitionNode | DocumentNode]; [undefined] is [None] at the use. *)
Inductive Query :=
| ADefinition (d : DefinitionNode)
| ADocument (doc : DocumentNode).

(** Any node, for the functions typed over [ASTNode] or [any]. *)
Inductive ASTNode :=
| NName (value : string)
| NDocument (doc : DocumentNode)
| NDefinition (d : DefinitionNode)
| NVariableDefinition (vd : VariableDefinitionNode)
| NSelectionSet (selections : list Selection)
| NSelection (s : Selection)
| NArgument (a : ArgumentNode)
| NValue (v : ValueNode)
| NDirective (d : DirectiveNode)
| NType (t : TypeNode).

(** [node.directives] *)
Definition directivesOf (node : ASTNode) : option (list DirectiveNode) :=
  match node with
  | NDefinition (OperationDefinition _ _ _ ds _) => Some ds
  | NDefinition (FragmentDefinition _ _ _ ds _) => Some ds
  | NVariableDefinition vd => Some (variable_directives vd)
  | NSelection (Field _ _ _ ds _) => Some ds
  | NSelection (FragmentSpread _ ds) => Some ds
  | NSelection (InlineFragment _ ds _) => Some ds
  | _ => None
  end.

(** ** The registry *)

(** Modelled from the spec: [Entities] of [./types], which is not among
    the sources: a mapping from entity-type name to a descriptor holding
    a mapping from field name to a field descriptor with an optional
    dependency document. *)
Record EntityField := { dependencies : option DocumentNode }.
Record Entity := { fields : gmap string EntityField }.
Abbreviation Entities := (gmap string Entity).

(** ** Node classifier *)

Definition _isNodeWithDirectives (node : option ASTNode) : bool :=
  match node with
  | None => false
  | Some n => match directivesOf n with None => false | Some _ => true end
  end.

Definition isComputed (d : DirectiveNode) : bool :=
  String.eqb (directive_name d) "computed".

(** [value.value] of a value node; [true]/[false] already as the string
    they become as a property key and in a template literal. *)
Definition valueOf (v : ValueNode) : option string :=
  match v with
  | IntValue s | FloatValue s | StringValue s | EnumValue s => Some s
  | BooleanValue b => Some (if b then "true" else "false")
  | Variable_ _ | NullValue | ListValue _ | ObjectValue _ => None
  end.

Definition getDirectiveType (directiveNode : option DirectiveNode)
  : result string :=
  let typeName :=
    match directiveNode with
    | None => None
    | Some d =>
        match head (directive_arguments d) with
        | None => None
        | Some a => valueOf (argument_value a)
        end
    end in
  match typeName with
  | None => Throw NoTypeSpecified
  | Some t => Ok t
  end.

Definition nodeHasComputedDirectives (node : option ASTNode) : bool :=
  if negb (_isNodeWithDirectives node) then false
  else
    match node with
    | Some n =>
        match directivesOf n with
        | Some ds => existsb isComputed ds
        | None => false
        end
    | None => false
    end.

(** ** [visit] *)

(** What a [Field] callback returns: [undefined], or an array that takes
    the node's place. *)
Inductive VisitorResult :=
| Undefined
| Replacement (nodes : list Selection).

(** The callbacks: [Field] may throw; [SelectionSet] returns the node it
    was given, with the selections it has assigned; [Directive] answers
    whether it returns [null]. *)
Record Visitor := {
  enter_Field : FieldNode -> result VisitorResult;
  enter_SelectionSet : list Selection -> list Selection;
  enter_Directive : DirectiveNode -> bool
}.

Section Visit.
Variable v : Visitor.

Definition visitDirectives (ds : list DirectiveNode) : list DirectiveNode :=
  List.filter (fun d => negb (enter_Directive v d)) ds.

Fixpoint visitSelection (fuel : nat) (s : Selection) : result Selection :=
  match fuel with
  | 0 => OutOfFuel
  | S n =>
      let visitSelectionSet sels :=
        mapM (visitSelection n) (enter_SelectionSet v sels) in
      match s with
      | Field a nm args ds ss =>
          let* r := enter_Field v (Build_FieldNode a nm args ds ss) in
          match r with
          | Replacement nodes => Ok (Arr nodes)
          | Undefined =>
              match ss with
              | None => Ok (Field a nm args (visitDirectives ds) None)
              | Some sels =>
                  let* sels' := visitSelectionSet sels in
                  Ok (Field a nm args (visitDirectives ds) (Some sels'))
              end
          end
      | FragmentSpread nm ds => Ok (FragmentSpread nm (visitDirectives ds))
      | InlineFragment tc ds sels =>
          let* sels' := visitSelectionSet sels in
          Ok (InlineFragment tc (visitDirectives ds) sels')
      | Arr items =>
          let* items' := mapM (visitSelection n) items in
          Ok (Arr items')
      end
  end.

Definition visitSelectionSet (fuel : nat) (sels : list Selection)
  : result (list Selection) :=
  mapM (visitSelection fuel) (enter_SelectionSet v sels).

Definition visitVariableDefinition (vd : VariableDefinitionNode)
  : VariableDefinitionNode :=
  {| variable := variable vd;
     variable_type := variable_type vd;
     defaultValue := defaultValue vd;
     variable_directives := visitDirectives (variable_directives vd) |}.

Definition visitDefinition (fuel : nat) (d : DefinitionNode)
  : result DefinitionNode :=
  match d with
  | OperationDefinition op nm vds ds ss =>
      let* ss' := visitSelectionSet fuel ss in
      Ok (OperationDefinition op nm (map visitVariableDefinition vds)
            (visitDirectives ds) ss')
  | FragmentDefinition nm vds tc ds ss =>
      let* ss' := visitSelectionSet fuel ss in
      Ok (FragmentDefinition nm (map visitVariableDefinition vds) tc
            (visitDirectives ds) ss')
  end.

Definition visitQuery (fuel : nat) (q : Query) : result Query :=
  match q with
  | ADefinition d =>
      let* d' := visitDefinition fuel d in Ok (ADefinition d')
  | ADocument doc =>
      let* ds := mapM (visitDefinition fuel) (definitions doc) in
      Ok (ADocument {| definitions := ds |})
  end.
End Visit.

(** Nesting depth, the fuel a traversal needs. *)
Fixpoint height (s : Selection) : nat :=
  match s with
  | Field _ _ _ _ None => 1
  | Field _ _ _ _ (Some sels) => S (list_max (map height sels))
  | FragmentSpread _ _ => 1
  | InlineFragment _ _ sels => S (list_max (map height sels))
  | Arr items => S (list_max (map height items))
  end.

Definition heights (sels : list Selection) : nat := list_max (map height sels).

Definition heightDefinition (d : DefinitionNode) : nat :=
  match d with
  | OperationDefinition _ _ _ _ ss => heights ss
  | FragmentDefinition _ _ _ _ ss => heights ss
  end.

Definition heightQuery (q : Query) : nat :=
  match q with
  | ADefinition d => heightDefinition d
  | ADocument doc => list_max (map heightDefinition (definitions doc))
  end.

Definition visit (q : Query) (v : Visitor) : result Query :=
  visitQuery v (heightQuery q) q.

(** ** The second pass of replace-mode *)

(** lodash [flatten]: one level. *)
Definition flatten (selections : list Selection) : list Selection :=
  flat_map (fun s => match s with Arr items => items | _ => [s] end)
    selections.

(** [field.alias?.value || field.name.value]: an empty alias is falsy. *)
Definition responseKey (field : FieldNode) : string :=
  match alias field with
  | Some a => if String.eqb a "" then name field else a
  | None => name field
  end.

(** The accumulator object of the grouping [reduce], keys in insertion
    order. *)
Fixpoint get {V} (acc : list (string * V)) (k : string) : option V :=
  match acc with
  | [] => None
  | (k', x) :: rest => if String.eqb k' k then Some x else get rest k
  end.

(** [acc[k] = x]: a key already there keeps its place, a new one goes
    last. *)
Fixpoint set {V} (acc : list (string * V)) (k : string) (x : V)
  : list (string * V) :=
  match acc with
  | [] => [(k, x)]
  | (k', y) :: rest =>
      if String.eqb k' k then (k', x) :: rest else (k', y) :: set rest k x
  end.

Definition values {V} (acc : list (string * V)) : list V := map snd acc.

Definition groupFields (fs : list FieldNode)
  : list (string * list FieldNode) :=
  fold_left
    (fun acc field =>
       let name := responseKey field in
       set acc name (default [] (get acc name) ++ [field]))
    fs [].

(** lodash [mergeWith(acc, field, customizer)] on field nodes, with the
    customizer of the source: arrays already in [acc] are concatenated
    with the incoming ones, at any depth; other properties are merged
    recursively, the incoming value winning; a property absent from
    [field] leaves [acc] alone.  [None] is the empty object. *)
Definition mergeWith (acc : option FieldNode) (field : FieldNode)
  : FieldNode :=
  match acc with
  | None => field
  | Some o =>
      {| alias := match alias field with
                  | Some a => Some a
                  | None => alias o
                  end;
         name := name field;
         arguments := arguments o ++ arguments field;
         directives := directives o ++ directives field;
         selectionSet :=
           match selectionSet o, selectionSet field with
           | Some s1, Some s2 => Some (s1 ++ s2)
           | Some s1, None => Some s1
           | None, s2 => s2
           end |}
  end.

(** [fields.reduce((acc, field) => mergeWith(acc, field, ...), {})] *)
Definition mergeFields (fields : list FieldNode) : option FieldNode :=
  fold_left (fun acc field => Some (mergeWith acc field)) fields None.

(** The [SelectionSet] callback of the second pass: the selections it
    assigns to the node.  A group is never empty, so [mergeFields] never
    leaves the empty object. *)
Definition normalizeSelections (selections : list Selection)
  : list Selection :=
  let selections := flatten selections in
  let fields := groupFields (omap asField selections) in
  List.filter (fun selection => negb (isField selection)) selections
  ++ omap (fun fields => ofField <$> mergeFields fields) (values fields).

(** ** The rewriters *)

(** [fragment.selectionSet.selections] on what the recursive call
    returned. *)
Definition selectionsOf (fragment : option Query)
  : result (list Selection) :=
  match fragment with
  | None => Throw (TypeError "selectionSet")
  | Some (ADefinition (OperationDefinition _ _ _ _ ss)) => Ok ss
  | Some (ADefinition (FragmentDefinition _ _ _ _ ss)) => Ok ss
  | Some (ADocument _) => Throw (TypeError "selections")
  end.

(** The body shared by [replaceDirectiveByFragment] and
    [addFragmentToNode], which differ in the rewriter they call on the
    fragment. *)
Definition resolveFragment (rewrite : option Query -> result (option Query))
    (entities : Entities) (node : FieldNode) : result (option Query) :=
  let computedDirective := List.find isComputed (directives node) in
  let* directiveType := getDirectiveType computedDirective in
  match entities !! directiveType with
  | None => Throw (NoEntityFound directiveType)
  | Some entityType =>
      let fieldName := name node in
      match fields entityType !! fieldName with
      | None => Throw (NoResolverFound fieldName directiveType)
      | Some entityField =>
          let fragment :=
            match dependencies entityField with
            | None => None
            | Some doc => ADefinition <$> head (definitions doc)
            end in
          rewrite fragment
      end
  end.

Definition noSelectionSet (selections : list Selection) := selections.
Definition noDirective (d : DirectiveNode) := false.

Definition secondPass_replace : Visitor :=
  {| enter_Field := fun _ => Ok Undefined;
     enter_SelectionSet := normalizeSelections;
     enter_Directive := isComputed |}.

Definition secondPass_add : Visitor :=
  {| enter_Field := fun _ => Ok Undefined;
     enter_SelectionSet := flatten;
     enter_Directive := noDirective |}.

(** [nodeHasComputedDirectives(node)] on a field node. *)
Definition annotated (node : FieldNode) : bool :=
  nodeHasComputedDirectives (Some (NSelection (ofField node))).

Definition firstPass_replace
    (replaceDirectiveByFragment : FieldNode -> result (option Query))
  : Visitor :=
  {| enter_Field := fun node =>
       if negb (annotated node) then Ok Undefined
       else
         let* fragment := replaceDirectiveByFragment node in
         let* selections := selectionsOf fragment in
         Ok (Replacement selections);
     enter_SelectionSet := noSelectionSet;
     enter_Directive := noDirective |}.

Definition firstPass_add
    (addFragmentToNode : FieldNode -> result (option Query))
  : Visitor :=
  {| enter_Field := fun node =>
       if negb (annotated node) then Ok Undefined
       else
         let* fragment := addFragmentToNode node in
         let* selections := selectionsOf fragment in
         Ok (Replacement (ofField node :: selections));
     enter_SelectionSet := noSelectionSet;
     enter_Directive := noDirective |}.

Fixpoint replaceDirectivesByFragments (fuel : nat) (entities : Entities)
    (query : option Query) : result (option Query) :=
  match query with
  | None => Ok None
  | Some q =>
      match fuel with
      | 0 => OutOfFuel
      | S n =>
          let replaceDirectiveByFragment :=
            resolveFragment (replaceDirectivesByFragments n entities)
              entities in
          let* firstPass :=
            visit q (firstPass_replace replaceDirectiveByFragment) in
          let* out := visit firstPass secondPass_replace in
          Ok (Some out)
      end
  end.

Fixpoint addFragmentsFromDirectives (fuel : nat) (entities : Entities)
    (query : option Query) : result (option Query) :=
  match query with
  | None => Ok None
  | Some q =>
      match fuel with
      | 0 => OutOfFuel
      | S n =>
          let addFragmentToNode :=
            resolveFragment (addFragmentsFromDirectives n entities)
              entities in
          let* firstPass := visit q (firstPass_add addFragmentToNode) in
          let* out := visit firstPass secondPass_add in
          Ok (Some out)
      end
  end.

(** The resolvers of a call that has [fuel] left for its nested calls. *)
Definition replaceDirectiveByFragment (fuel : nat) (entities : Entities)
  : FieldNode -> result (option Query) :=
  resolveFragment (replaceDirectivesByFragments fuel entities) entities.

Definition addFragmentToNode (fuel : nat) (entities : Entities)
  : FieldNode -> result (option Query) :=
  resolveFragment (addFragmentsFromDirectives fuel entities) entities.

(** ** Where the first pass goes *)

(** No annotated field at any depth. *)
Fixpoint plain (s : Selection) : bool :=
  match s with
  | Field _ _ _ ds ss =>
      negb (existsb isComputed ds)
      && match ss with None => true | Some sels => forallb plain sels end
  | FragmentSpread _ _ => true
  | InlineFragment _ _ sels => forallb plain sels
  | Arr items => forallb plain items
  end.

(** [Visited s f]: the first pass, if it gets that far, calls the [Field]
    callback on the field [f] of [s]: [f] does not lie below an annotated
    field. *)
Inductive Visited : Selection -> FieldNode -> Prop :=
| Visited_here f : Visited (ofField f) f
| Visited_field a nm args ds sels s f :
    existsb isComputed ds = false -> In s sels -> Visited s f ->
    Visited (Field a nm args ds (Some sels)) f
| Visited_inline tc ds sels s f :
    In s sels -> Visited s f -> Visited (InlineFragment tc ds sels) f
| Visited_arr items s f :
    In s items -> Visited s f -> Visited (Arr items) f.

(** [First sels f]: [f] is the first annotated field the first pass meets
    in [sels]. *)
Inductive First : list Selection -> FieldNode -> Prop :=
| First_here pre f post :
    forallb plain pre = true -> annotated f = true ->
    First (pre ++ ofField f :: post) f
| First_field pre a nm args ds sels post f :
    forallb plain pre = true -> existsb isComputed ds = false ->
    First sels f ->
    First (pre ++ Field a nm args ds (Some sels) :: post) f
| First_inline pre tc ds sels post f :
    forallb plain pre = true -> First sels f ->
    First (pre ++ InlineFragment tc ds sels :: post) f
| First_arr pre items post f :
    forallb plain pre = true -> First items f ->
    First (pre ++ Arr items :: post) f.

Definition selectionsOfDefinition (d : DefinitionNode) : list Selection :=
  match d with
  | OperationDefinition _ _ _ _ ss => ss
  | FragmentDefinition _ _ _ _ ss => ss
  end.

Definition VisitedIn (q : Query) (f : FieldNode) : Prop :=
  match q with
  | ADefinition d =>
      exists s, In s (selectionsOfDefinition d) /\ Visited s f
  | ADocument doc =>
      exists d s, In d (definitions doc) /\
                  In s (selectionsOfDefinition d) /\ Visited s f
  end.

Definition FirstIn (q : Query) (f : FieldNode) : Prop :=
  match q with
  | ADefinition d => First (selectionsOfDefinition d) f
  | ADocument doc =>
      exists pre d post,
        definitions doc = pre ++ d :: post /\
        forallb (fun d => forallb plain (selectionsOfDefinition d)) pre = true
        /\ First (selectionsOfDefinition d) f
  end.

(** [Occurs s f]: [f] is a field node of [s], at any depth. *)
Inductive Occurs : Selection -> FieldNode -> Prop :=
| Occurs_here f : Occurs (ofField f) f
| Occurs_field a nm args ds sels s f :
    In s sels -> Occurs s f -> Occurs (Field a nm args ds (Some sels)) f
| Occurs_inline tc ds sels s f :
    In s sels -> Occurs s f -> Occurs (InlineFragment tc ds sels) f
| Occurs_arr items s f :
    In s items -> Occurs s f -> Occurs (Arr items) f.

Definition OccursIn (q : Query) (f : FieldNode) : Prop :=
  match q with
  | ADefinition d =>
      exists s, In s (selectionsOfDefinition d) /\ Occurs s f
  | ADocument doc =>
      exists d s, In d (definitions doc) /\
                  In s (selectionsOfDefinition d) /\ Occurs s f
  end.

(** Both rewriters abort on [node] with [e]: a call whose first pass
    meets [node] before any other annotated field throws [e], and a call
    whose first pass would visit [node] returns no tree. *)
Definition AbortsWith (entities : Entities) (node : FieldNode) (e : error)
  : Prop :=
  (forall fuel q, FirstIn q node ->
     replaceDirectivesByFragments (S fuel) entities (Some q) = Throw e /\
     addFragmentsFromDirectives (S fuel) entities (Some q) = Throw e)
  /\ (forall fuel q, VisitedIn q node ->
     isOk (replaceDirectivesByFragments fuel entities (Some q)) = false /\
     isOk (addFragmentsFromDirectives fuel entities (Some q)) = false).


(** ** Vocabulary for the second pass *)

(** The keys of a list in the order of their first occurrences. *)
Fixpoint firstSeen (keys : list string) : list string :=
  match keys with
  | [] => []
  | k :: rest =>
      k :: List.filter (fun k' => negb (String.eqb k' k)) (firstSeen rest)
  end.

(** The fields of [fs] answering to the response key [k], in order. *)
Definition group (k : string) (fs : list FieldNode) : list FieldNode :=
  List.filter (fun f => String.eqb (responseKey f) k) fs.

(** The field selections of a list, and those under one response key. *)
Definition fieldsOf (selections : list Selection) : list FieldNode :=
  omap asField selections.


(** One field for a group of fields, in the words of the merge rule:
    the last alias present and the last name win, the argument lists,
    the directive lists and the child selection lists are concatenated
    in group order. *)
Definition coalesce (g : list FieldNode) : FieldNode :=
  {| alias := head (omap alias (rev g));
     name := List.last (map name g) "";
     arguments := concat (map arguments g);
     directives := concat (map directives g);
     selectionSet :=
       match omap selectionSet g with
       | [] => None
       | sets => Some (concat sets)
       end |}.

(** Directive nodes named [computed], anywhere in a tree. *)
Definition computedAmong (ds : list DirectiveNode) : nat :=
  length (List.filter isComputed ds).

Fixpoint computedIn (s : Selection) : nat :=
  match s with
  | Field _ _ _ ds ss =>
      computedAmong ds
      + match ss with
        | None => 0
        | Some sels => list_sum (map computedIn sels)
        end
  | FragmentSpread _ ds => computedAmong ds
  | InlineFragment _ ds sels =>
      computedAmong ds + list_sum (map computedIn sels)
  | Arr items => list_sum (map computedIn items)
  end.

Definition computedInDefinition (d : DefinitionNode) : nat :=
  match d with
  | OperationDefinition _ _ vds ds ss
  | FragmentDefinition _ vds _ ds ss =>
      list_sum (map (fun vd => computedAmong (variable_directives vd)) vds)
      + computedAmong ds + list_sum (map computedIn ss)
  end.

Definition computedInQuery (q : Query) : nat :=
  match q with
  | ADefinition d => computedInDefinition d
  | ADocument doc => list_sum (map computedInDefinition (definitions doc))
  end.

(** Trees without arrays among the selections, as parsed; and trees in
    which an array holds such trees and sits directly in a selection
    list, as the first pass leaves them. *)
Definition isArr (s : Selection) : bool :=
  match s with Arr _ => true | _ => false end.

Fixpoint clean (s : Selection) : bool :=
  match s with
  | Field _ _ _ _ None => true
  | Field _ _ _ _ (Some sels) => forallb clean sels
  | FragmentSpread _ _ => true
  | InlineFragment _ _ sels => forallb clean sels
  | Arr _ => false
  end.

Fixpoint shallow (s : Selection) : bool :=
  match s with
  | Field _ _ _ _ None => true
  | Field _ _ _ _ (Some sels) => forallb shallow sels
  | FragmentSpread _ _ => true
  | InlineFragment _ _ sels => forallb shallow sels
  | Arr items => forallb clean items
  end.

Definition shallowQuery (q : Query) : bool :=
  match q with
  | ADefinition d => forallb shallow (selectionsOfDefinition d)
  | ADocument doc =>
      forallb (fun d => forallb shallow (selectionsOfDefinition d))
        (definitions doc)
  end.

Definition cleanQuery (q : Query) : bool :=
  match q with
  | ADefinition d => forallb clean (selectionsOfDefinition d)
  | ADocument doc =>
      forallb (fun d => forallb clean (selectionsOfDefinition d))
        (definitions doc)
  end.

(** Every dependency document of the registry is as parsed. *)
Definition cleanEntities (entities : Entities) : Prop :=
  forall type entityType fieldName entityField doc,
    entities !! type = Some entityType ->
    fields entityType !! fieldName = Some entityField ->
    dependencies entityField = Some doc ->
    cleanQuery (ADocument doc) = true.

(** A selection list in the order the second pass gives it: members
    that are neither fields nor arrays, then fields with pairwise
    different response keys. *)
Definition Tidy (l : list Selection) : Prop :=
  exists nf fs,
    l = nf ++ map ofField fs
    /\ (forall x, In x nf -> isField x = false /\ isArr x = false)
    /\ List.NoDup (map responseKey fs).

(** [visited2 n x y]: the second pass of replace-mode, with fuel [n],
    returns [y] for [x]. *)
Abbreviation visited2 n :=
  (fun x y => visitSelection secondPass_replace n x = Ok y).

(** [HasList T L]: [L] is a selection list of the forest [T]: [T] itself
    or the selection list of a node below it. *)
Inductive HasList : list Selection -> list Selection -> Prop :=
| HasList_here T : HasList T T
| HasList_field T a nm args ds sels L :
    In (Field a nm args ds (Some sels)) T -> HasList sels L -> HasList T L
| HasList_inline T tc ds sels L :
    In (InlineFragment tc ds sels) T -> HasList sels L -> HasList T L.

Definition ListIn (q : Query) (L : list Selection) : Prop :=
  match q with
  | ADefinition d => HasList (selectionsOfDefinition d) L
  | ADocument doc =>
      exists d, In d (definitions doc)
                /\ HasList (selectionsOfDefinition d) L
  end.

(** [node] stands in a selection list of [out], unchanged, and the
    selections of its resolved dependency are its next siblings. *)
Definition Augmented (out : Query) (node : FieldNode)
    (selections : list Selection) : Prop :=
  exists L pre post,
    ListIn out L /\ L = pre ++ ofField node :: selections ++ post.

(** [node] stands in a selection list of [out] and every one of
    [selections] comes later in that list. *)
Definition FollowedBy (out : Query) (node : FieldNode)
    (selections : list Selection) : Prop :=
  exists L pre post,
    ListIn out L /\ L = pre ++ ofField node :: post
    /\ forall s, In s selections -> In s post.

(** The reading of "every annotated field is kept and followed by its
    dependency" over all field nodes of the tree. *)
Definition EveryAnnotatedFieldAugmented : Prop :=
  forall fuel (entities : Entities) q out node fragment selections,
    OccursIn q node -> annotated node = true ->
    addFragmentsFromDirectives (S fuel) entities (Some q) = Ok (Some out) ->
    addFragmentToNode fuel entities node = Ok fragment ->
    selectionsOf fragment = Ok selections ->
    FollowedBy out node selections.

(** ** Vocabulary for further properties *)

(** No annotated field anywhere in the document. *)
Definition plainQuery (q : Query) : bool :=
  match q with
  | ADefinition d => forallb plain (selectionsOfDefinition d)
  | ADocument doc =>
      forallb (fun d => forallb plain (selectionsOfDefinition d))
        (definitions doc)
  end.

(** The registry gives [node] a dependency whose first definition meets
    [node] itself before any other annotated field. *)
Definition SelfDependent (entities : Entities) (node : FieldNode) : Prop :=
  exists directiveType entityType entityField doc d rest,
    getDirectiveType (List.find isComputed (directives node))
      = Ok directiveType
    /\ entities !! directiveType = Some entityType
    /\ fields entityType !! name node = Some entityField
    /\ dependencies entityField = Some doc
    /\ definitions doc = d :: rest
    /\ First (selectionsOfDefinition d) node.

(** [Spliced M sels]: the array [sels] sits in the list [M] or in a
    selection list below it. *)
Inductive Spliced : list Selection -> list Selection -> Prop :=
| Spliced_here M sels : In (Arr sels) M -> Spliced M sels
| Spliced_field M a nm args ds c sels :
    In (Field a nm args ds (Some c)) M -> Spliced c sels -> Spliced M sels
| Spliced_inline M tc ds c sels :
    In (InlineFragment tc ds c) M -> Spliced c sels -> Spliced M sels.

(** [L] has a field for every response key of [sels] and every member
    of [sels] that is not a field. *)
Definition Carries (L sels : list Selection) : Prop :=
  (forall f, In f (fieldsOf sels) ->
             In (responseKey f) (map responseKey (fieldsOf L)))
  /\ (forall s, In s sels -> isField s = false -> In s L).

(** The second pass of replace-mode returns the members of [sels] as
    they are. *)
Definition Settled (sels : list Selection) : Prop :=
  forall s, In s sels ->
            forall m, height s <= m ->
                      visitSelection secondPass_replace m s = Ok s.

(** ** Sample documents *)

Module Sample.
Definition computed (type : string) : DirectiveNode :=
  {| directive_name := "computed";
     directive_arguments :=
       [{| argument_name := "type"; argument_value := StringValue type |}] |}.

Definition leaf (name : string) : Selection := Field None name [] [] None.

Definition fragmentOn (type : string) (selections : list Selection)
  : DocumentNode :=
  {| definitions := [FragmentDefinition "deps" [] type [] selections] |}.

Definition operation (selections : list Selection) : Query :=
  ADefinition (OperationDefinition query None [] [] selections).

(** [User.fullName] depends on [firstName] and [lastName];
    [User.initials] depends on the computed [fullName];
    [User.broken] declares no dependency. *)
Definition entities : Entities :=
  <["User" :=
      {| fields :=
           <["fullName" :=
               {| dependencies :=
                    Some (fragmentOn "User"
                            [leaf "firstName"; leaf "lastName"]) |}]>
           (<["initials" :=
               {| dependencies :=
                    Some (fragmentOn "User"
                            [Field None "fullName" [] [computed "User"]
                               None]) |}]>
           (<["broken" := {| dependencies := None |}]> ∅)) |}]> ∅.

Definition fullName : FieldNode :=
  {| alias := None; name := "fullName"; arguments := [];
     directives := [computed "User"]; selectionSet := None |}.





Definition initials : FieldNode :=
  {| alias := None; name := "initials"; arguments := [];
     directives := [computed "User"]; selectionSet := None |}.

(** [{ fullName @computed(type: "User") { initials @computed(type: "User") } }] *)
Definition nestedComputed : Query :=
  operation
    [Field None "fullName" [] [computed "User"] (Some [ofField initials])].

(** [{ id  fullName @computed(type: "User") }] *)
Definition profile : Query := operation [leaf "id"; ofField fullName].
Definition self : FieldNode :=
  {| alias := None; name := "self"; arguments := [];
     directives := [computed "User"]; selectionSet := None |}.

(** [User.self] depends on the computed [self]. *)
Definition loop : Entities :=
  <["User" :=
      {| fields :=
           <["self" :=
               {| dependencies :=
                    Some (fragmentOn "User" [leaf "id"; ofField self]) |}]>
           ∅ |}]> ∅.

(** [User.empty] has a dependency document without definitions. *)
Definition hollow : Entities :=
  <["User" :=
      {| fields :=
           <["empty" := {| dependencies := Some {| definitions := [] |} |}]>
           ∅ |}]> ∅.

Definition empty : FieldNode :=
  {| alias := None; name := "empty"; arguments := [];
     directives := [computed "User"]; selectionSet := None |}.

Definition untyped : FieldNode :=
  {| alias := None; name := "fullName"; arguments := [];
     directives :=
       [{| directive_name := "computed"; directive_arguments := [] |};
        computed "User"];
     selectionSet := None |}.
End Sample.

(** * Properties *)

(** ** Node classifier *)

Lemma isComputed_name d :
  isComputed d = true <-> directive_name d = "computed".
Proof. unfold isComputed. apply String.eqb_eq. Qed.

(** C9: [nodeHasComputedDirectives] answers [true] exactly when the node
    is present, has a [directives] list, and some directive of the list
    is named [computed]; it is a total boolean function: on an absent
    node and on a node without the list it answers [false], and nothing
    is raised. *)
Theorem nodeHasComputedDirectives_iff (node : option ASTNode) :
  (nodeHasComputedDirectives node = true <->
   exists n ds d,
     node = Some n /\ directivesOf n = Some ds /\
     In d ds /\ directive_name d = "computed")
  /\ nodeHasComputedDirectives None = false
  /\ (forall n,
        nodeHasComputedDirectives (Some n) =
        match directivesOf n with
        | None => false
        | Some ds => existsb isComputed ds
        end).
Proof.
  repeat split.
  - unfold nodeHasComputedDirectives, _isNodeWithDirectives.
    destruct node as [n|]; [|discriminate].
    destruct (directivesOf n) as [ds|] eqn:E; [|discriminate]. simpl.
    intros H. apply existsb_exists in H as (d & Hin & Hd).
    exists n, ds, d. repeat split; auto. now apply isComputed_name.
  - intros (n & ds & d & -> & E & Hin & Hd).
    unfold nodeHasComputedDirectives, _isNodeWithDirectives. rewrite E. simpl.
    apply existsb_exists. exists d. split; auto. now apply isComputed_name.
  - intros n. unfold nodeHasComputedDirectives, _isNodeWithDirectives.
    now destruct (directivesOf n).
Qed.

(** C10: on an absent directive node [getDirectiveType] throws its own
    error, the one it throws for a missing first argument or a missing
    argument value; no property of the absent node is read: whatever it
    is given, it returns a type name or throws that error. *)
Theorem getDirectiveType_absent :
  getDirectiveType None = Throw NoTypeSpecified
  /\ (forall nm, getDirectiveType
                   (Some {| directive_name := nm; directive_arguments := [] |})
                 = getDirectiveType None)
  /\ (forall nm a rest,
        getDirectiveType
          (Some {| directive_name := nm;
                   directive_arguments :=
                     {| argument_name := a; argument_value := NullValue |}
                     :: rest |})
        = getDirectiveType None)
  /\ (forall directiveNode,
        getDirectiveType directiveNode = Throw NoTypeSpecified
        \/ exists typeName, getDirectiveType directiveNode = Ok typeName).
Proof.
  repeat split. intros directiveNode. unfold getDirectiveType.
  destruct directiveNode as [[nm [|[a v] rest]]|]; simpl; auto.
  destruct (valueOf v); eauto.
Qed.

(** ** Absent input *)

(** C8: both entry points return [null] on an absent tree, whatever the
    registry (and before anything else is looked at: no fuel is used). *)
Theorem absent_query_returns_null (fuel : nat) (entities : Entities) :
  replaceDirectivesByFragments fuel entities None = Ok None
  /\ addFragmentsFromDirectives fuel entities None = Ok None.
Proof. destruct fuel; split; reflexivity. Qed.

(** ** The result monad and the traversal *)

Lemma mapM_Ok_In {A B} (f : A -> result B) l l' x :
  mapM f l = Ok l' -> In x l -> isOk (f x) = true.
Proof.
  revert l'. induction l as [|y l IH]; intros l' H Hin; [destruct Hin|].
  simpl in H. destruct (f y) eqn:Ey; try discriminate.
  simpl in H. destruct (mapM f l) eqn:El; try discriminate.
  destruct Hin as [->|Hin]; [now rewrite Ey|eauto].
Qed.

Lemma mapM_app_Throw {A B} (f : A -> result B) pre pre' x post e :
  mapM f pre = Ok pre' -> f x = Throw e ->
  mapM f (pre ++ x :: post) = Throw e.
Proof.
  revert pre'. induction pre as [|y pre IH]; intros pre' Hpre Hx; simpl.
  - now rewrite Hx.
  - simpl in Hpre. destruct (f y); try discriminate. simpl in *.
    destruct (mapM f pre) eqn:E; try discriminate.
    now rewrite (IH _ eq_refl Hx).
Qed.

Lemma mapM_id {A} (f : A -> result A) l :
  Forall (fun x => f x = Ok x) l -> mapM f l = Ok l.
Proof.
  induction 1 as [|x l Hx _ IH]; simpl; [reflexivity|].
  now rewrite Hx; simpl; rewrite IH.
Qed.

Lemma heights_cons s sels :
  heights (s :: sels) = Nat.max (height s) (heights sels).
Proof. reflexivity. Qed.

Lemma heights_app l1 l2 :
  heights (l1 ++ l2) = Nat.max (heights l1) (heights l2).
Proof. unfold heights. now rewrite map_app, list_max_app. Qed.

Lemma heights_In s sels : In s sels -> height s <= heights sels.
Proof.
  induction sels as [|x l IH]; intros []; rewrite heights_cons.
  - subst. lia.
  - specialize (IH H). lia.
Qed.

Lemma height_pos s : 1 <= height s.
Proof. destruct s as [? ? ? ? [?|]| | |]; simpl; lia. Qed.

Lemma annotated_directives a nm args ds ss :
  annotated (Build_FieldNode a nm args ds ss) = existsb isComputed ds.
Proof. reflexivity. Qed.

Section FirstPass.
Variable v : Visitor.
Hypothesis v_plain :
  forall g, annotated g = false -> enter_Field v g = Ok Undefined.
Hypothesis v_selectionSet : forall sels, enter_SelectionSet v sels = sels.
Hypothesis v_directive : forall d, enter_Directive v d = false.

Lemma visitDirectives_none ds : visitDirectives v ds = ds.
Proof.
  unfold visitDirectives. induction ds as [|d ds IH]; simpl; [easy|].
  now rewrite v_directive; simpl; rewrite IH.
Qed.

(** A traversal that returns has had every callback it made return. *)
Lemma Visited_callback_Ok s f :
  Visited s f ->
  forall n s', visitSelection v n s = Ok s' ->
               isOk (enter_Field v f) = true.
Proof.
  induction 1 as [f|a nm args ds sels s f Hds Hin _ IH
                  |tc ds sels s f Hin _ IH|items s f Hin _ IH];
    intros [|n] s' Hv; try discriminate; simpl in Hv.
  - destruct f; simpl in *. now destruct (enter_Field v _).
  - rewrite v_plain in Hv by (now rewrite annotated_directives).
    simpl in Hv. rewrite v_selectionSet in Hv.
    destruct (mapM (visitSelection v n) sels) as [l| |] eqn:E;
      try discriminate.
    pose proof (mapM_Ok_In _ _ _ _ E Hin) as Hs.
    destruct (visitSelection v n s) eqn:Es; try discriminate. eauto.
  - rewrite v_selectionSet in Hv.
    destruct (mapM (visitSelection v n) sels) as [l| |] eqn:E;
      try discriminate.
    pose proof (mapM_Ok_In _ _ _ _ E Hin) as Hs.
    destruct (visitSelection v n s) eqn:Es; try discriminate. eauto.
  - destruct (mapM (visitSelection v n) items) as [l| |] eqn:E;
      try discriminate.
    pose proof (mapM_Ok_In _ _ _ _ E Hin) as Hs.
    destruct (visitSelection v n s) eqn:Es; try discriminate. eauto.
Qed.

(** Without annotated fields the first pass changes nothing. *)
Lemma plain_unchanged n :
  forall s, plain s = true -> height s <= n -> visitSelection v n s = Ok s.
Proof.
  induction n as [|n IH]; intros s Hp Hh.
  { pose proof (height_pos s). lia. }
  assert (IHl : forall l, forallb plain l = true -> heights l <= n ->
                          mapM (visitSelection v n) l = Ok l).
  { intros l Hl Hn. apply mapM_id. apply List.Forall_forall. intros x Hx.
    apply IH.
    - rewrite forallb_forall in Hl. auto.
    - pose proof (heights_In _ _ Hx). lia. }
  destruct s as [a nm args ds [sels|]|nm ds|tc ds sels|items];
    simpl in *.
  - apply andb_true_iff in Hp as [Hds Hsels].
    apply negb_true_iff in Hds.
    rewrite v_plain by (now rewrite annotated_directives). simpl.
    rewrite v_selectionSet, IHl by (auto; unfold heights; lia). simpl.
    now rewrite visitDirectives_none.
  - apply andb_true_iff in Hp as [Hds _]. apply negb_true_iff in Hds.
    rewrite v_plain by (now rewrite annotated_directives). simpl.
    now rewrite visitDirectives_none.
  - now rewrite visitDirectives_none.
  - rewrite v_selectionSet, IHl by (auto; unfold heights; lia). simpl.
    now rewrite visitDirectives_none.
  - now rewrite IHl by (auto; unfold heights; lia).
Qed.

Lemma plain_list_unchanged n l :
  forallb plain l = true -> heights l <= n ->
  mapM (visitSelection v n) l = Ok l.
Proof.
  intros Hl Hn. apply mapM_id. apply List.Forall_forall. intros x Hx.
  apply plain_unchanged.
  - rewrite forallb_forall in Hl. auto.
  - pose proof (heights_In _ _ Hx). lia.
Qed.

(** The first annotated field met decides the outcome when its callback
    throws. *)
Lemma First_Throw sels f e :
  First sels f -> enter_Field v f = Throw e ->
  forall n, heights sels <= n ->
            mapM (visitSelection v n) sels = Throw e.
Proof.
  intros HF He.
  induction HF as [pre f post Hpre Hf
                  |pre a nm args ds sels post f Hpre Hds _ IH
                  |pre tc ds sels post f Hpre _ IH
                  |pre items post f Hpre _ IH];
    intros n Hn; rewrite heights_app, heights_cons in Hn;
    (eapply mapM_app_Throw;
     [apply plain_list_unchanged; [assumption|lia]|]);
    match type of Hn with
    | context [Nat.max (height ?x) _] => pose proof (height_pos x)
    end;
    (destruct n as [|n]; [lia|]); simpl.
  - destruct f; simpl in *. now rewrite He.
  - rewrite v_plain by (now rewrite annotated_directives). simpl.
    rewrite v_selectionSet, IH; [reflexivity|assumption|].
    simpl in Hn. unfold heights. lia.
  - rewrite v_selectionSet, IH; [reflexivity|assumption|].
    simpl in Hn. unfold heights. lia.
  - rewrite IH; [reflexivity|assumption|].
    simpl in Hn. unfold heights. lia.
Qed.
Lemma plain_definition_unchanged n d :
  forallb plain (selectionsOfDefinition d) = true ->
  heightDefinition d <= n -> visitDefinition v n d = Ok d.
Proof.
  assert (Hvd : forall vds, map (visitVariableDefinition v) vds = vds).
  { induction vds as [|[] vds IH]; simpl; [easy|].
    unfold visitVariableDefinition at 1. simpl.
    now rewrite visitDirectives_none, IH. }
  destruct d; simpl; intros Hp Hn; unfold visitSelectionSet;
    rewrite v_selectionSet, plain_list_unchanged by assumption; simpl;
    now rewrite Hvd, visitDirectives_none.
Qed.

Lemma heightDefinition_In d ds :
  In d ds -> heightDefinition d <= list_max (map heightDefinition ds).
Proof.
  induction ds as [|x l IH]; intros []; simpl.
  - subst. lia.
  - specialize (IH H). lia.
Qed.

Lemma VisitedIn_callback_Ok q f q' :
  VisitedIn q f -> visit q v = Ok q' -> isOk (enter_Field v f) = true.
Proof.
  assert (Hd : forall n d d' s,
             In s (selectionsOfDefinition d) -> Visited s f ->
             visitDefinition v n d = Ok d' ->
             isOk (enter_Field v f) = true).
  { intros n d d' s Hin Hs Hv.
    assert (isOk (visitSelection v n s) = true) as Hok.
    { destruct d; simpl in *; unfold visitSelectionSet in Hv;
        rewrite v_selectionSet in Hv;
        destruct (mapM _ _) eqn:E in Hv; try discriminate;
        eapply mapM_Ok_In; eauto. }
    destruct (visitSelection v n s) eqn:Es; try discriminate.
    eapply Visited_callback_Ok; eauto. }
  unfold visit. destruct q as [d|doc]; simpl.
  - intros (s & Hin & Hs) Hv.
    destruct (visitDefinition v _ d) eqn:E; try discriminate. eauto.
  - intros (d & s & Hd' & Hin & Hs) Hv.
    destruct (mapM _ _) eqn:E in Hv; try discriminate.
    pose proof (mapM_Ok_In _ _ _ _ E Hd') as Hok.
    destruct (visitDefinition v _ d) eqn:E'; try discriminate. eauto.
Qed.

Lemma FirstIn_Throw q f e :
  FirstIn q f -> enter_Field v f = Throw e -> visit q v = Throw e.
Proof.
  assert (Hd : forall n d, First (selectionsOfDefinition d) f ->
                           enter_Field v f = Throw e ->
                           heightDefinition d <= n ->
                           visitDefinition v n d = Throw e).
  { intros n d HF He Hn.
    destruct d; simpl in *; unfold visitSelectionSet;
      rewrite v_selectionSet, (First_Throw _ _ _ HF He) by assumption;
      reflexivity. }
  unfold visit. destruct q as [d|doc]; simpl; intros HF He.
  - now rewrite Hd.
  - destruct HF as (pre & d & post & Hdoc & Hpre & HF).
    rewrite Hdoc.
    erewrite mapM_app_Throw; [reflexivity| |].
    + apply mapM_id. apply List.Forall_forall. intros x Hx.
      apply plain_definition_unchanged.
      * rewrite forallb_forall in Hpre. auto.
      * apply heightDefinition_In. apply in_or_app. now left.
    + apply Hd; auto. apply heightDefinition_In.
      apply in_or_app. right. now left.
Qed.
End FirstPass.

(** ** Resolution failures *)

Lemma firstPass_replace_plain r g :
  annotated g = false -> enter_Field (firstPass_replace r) g = Ok Undefined.
Proof. intros H. simpl. now rewrite H. Qed.

Lemma firstPass_add_plain r g :
  annotated g = false -> enter_Field (firstPass_add r) g = Ok Undefined.
Proof. intros H. simpl. now rewrite H. Qed.

Lemma callbacks_abort (entities : Entities) node e :
  (forall fuel,
      enter_Field (firstPass_replace
                     (replaceDirectiveByFragment fuel entities)) node
      = Throw e) ->
  (forall fuel,
      enter_Field (firstPass_add (addFragmentToNode fuel entities)) node
      = Throw e) ->
  AbortsWith entities node e.
Proof.
  unfold replaceDirectiveByFragment, addFragmentToNode.
  intros Hr Ha. split; intros fuel q Hq.
  - split; simpl.
    + rewrite (FirstIn_Throw _ (firstPass_replace_plain _)
                 (fun _ => eq_refl) (fun _ => eq_refl) q node e Hq (Hr fuel)).
      reflexivity.
    + rewrite (FirstIn_Throw _ (firstPass_add_plain _)
                 (fun _ => eq_refl) (fun _ => eq_refl) q node e Hq (Ha fuel)).
      reflexivity.
  - split; (destruct fuel as [|fuel]; [reflexivity|]); simpl.
    + destruct (visit q _) as [q'| |] eqn:E; try reflexivity.
      eapply VisitedIn_callback_Ok in E;
        eauto using firstPass_replace_plain.
      now rewrite Hr in E.
    + destruct (visit q _) as [q'| |] eqn:E; try reflexivity.
      eapply VisitedIn_callback_Ok in E; eauto using firstPass_add_plain.
      now rewrite Ha in E.
Qed.

Lemma getDirectiveType_annotated node directiveType :
  getDirectiveType (List.find isComputed (directives node))
    = Ok directiveType ->
  annotated node = true.
Proof.
  destruct node as [a nm args ds ss]. rewrite annotated_directives. simpl.
  destruct (List.find isComputed ds) as [d|] eqn:E; [|discriminate].
  intros _. apply find_some in E as [Hin Hd].
  apply existsb_exists. eauto.
Qed.






(** ** Grouping by response key *)

Lemma firstSeen_In k keys : In k (firstSeen keys) <-> In k keys.
Proof.
  induction keys as [|a keys IH]; simpl; [tauto|].
  rewrite filter_In, IH, negb_true_iff, String.eqb_neq.
  destruct (String.eqb_spec k a); subst; intuition.
Qed.

Lemma firstSeen_NoDup keys : List.NoDup (firstSeen keys).
Proof.
  induction keys as [|a keys IH]; simpl; constructor.
  - rewrite filter_In, negb_true_iff, String.eqb_neq. tauto.
  - now apply List.NoDup_filter.
Qed.

Lemma filter_all {A} (p : A -> bool) l :
  (forall x, In x l -> p x = true) -> List.filter p l = l.
Proof.
  induction l as [|x l IH]; simpl; intros H; [reflexivity|].
  rewrite (H x) by now left. f_equal. apply IH. intros; apply H. now right.
Qed.

Lemma filter_none {A} (p : A -> bool) l :
  (forall x, In x l -> p x = false) -> List.filter p l = [].
Proof.
  induction l as [|x l IH]; simpl; intros H; [reflexivity|].
  rewrite (H x) by now left. apply IH. intros; apply H. now right.
Qed.

Lemma firstSeen_snoc keys k :
  firstSeen (keys ++ [k]) =
  if existsb (String.eqb k) keys then firstSeen keys
  else firstSeen keys ++ [k].
Proof.
  induction keys as [|a keys IH]; simpl; [reflexivity|].
  rewrite IH. destruct (String.eqb_spec k a) as [->|Hne]; simpl.
  - destruct (existsb (String.eqb a) keys); [reflexivity|].
    rewrite List.filter_app. simpl. rewrite String.eqb_refl. simpl.
    now rewrite app_nil_r.
  - destruct (existsb (String.eqb k) keys); [reflexivity|].
    rewrite List.filter_app. simpl.
    destruct (String.eqb_spec k a); [contradiction|reflexivity].
Qed.

Section Dictionary.
Context {V : Type}.
Variable F : string -> V.

Lemma get_map ks k :
  get (map (fun k' => (k', F k')) ks) k =
  if existsb (String.eqb k) ks then Some (F k) else None.
Proof.
  induction ks as [|a ks IH]; simpl; [reflexivity|].
  rewrite (String.eqb_sym k a).
  destruct (String.eqb_spec a k) as [->|]; simpl; [reflexivity|apply IH].
Qed.

Lemma set_map_absent ks k x :
  existsb (String.eqb k) ks = false ->
  set (map (fun k' => (k', F k')) ks) k x =
  map (fun k' => (k', F k')) ks ++ [(k, x)].
Proof.
  induction ks as [|a ks IH]; simpl; [reflexivity|].
  rewrite (String.eqb_sym k a).
  destruct (String.eqb_spec a k); simpl; [discriminate|].
  intros H. now rewrite IH.
Qed.

Lemma set_map_present ks k x :
  List.NoDup ks -> existsb (String.eqb k) ks = true ->
  set (map (fun k' => (k', F k')) ks) k x =
  map (fun k' => (k', if String.eqb k' k then x else F k')) ks.
Proof.
  induction 1 as [|a ks Ha Hnd IH]; simpl; [discriminate|].
  rewrite (String.eqb_sym k a).
  destruct (String.eqb_spec a k) as [->|Hne]; simpl.
  - intros _. f_equal. apply map_ext_in. intros k' Hk'.
    destruct (String.eqb_spec k' k); [subst; contradiction|reflexivity].
  - intros H. now rewrite IH.
Qed.
End Dictionary.

Lemma existsb_key_group k fs :
  existsb (String.eqb k) (map responseKey fs) = false -> group k fs = [].
Proof.
  intros H. apply filter_none. intros f Hf.
  destruct (String.eqb_spec (responseKey f) k) as [<-|]; [|reflexivity].
  assert (existsb (String.eqb (responseKey f)) (map responseKey fs) = true).
  { apply existsb_exists. exists (responseKey f).
    split; [now apply in_map|apply String.eqb_refl]. }
  congruence.
Qed.

Lemma groupFields_snoc fs f :
  groupFields (fs ++ [f]) =
  set (groupFields fs) (responseKey f)
      (default [] (get (groupFields fs) (responseKey f)) ++ [f]).
Proof. unfold groupFields. now rewrite fold_left_app. Qed.

(** The accumulator of the grouping [reduce] holds, in first-seen key
    order, each key with the fields that answer to it. *)
Lemma groupFields_firstSeen fs :
  groupFields fs =
  map (fun k => (k, group k fs)) (firstSeen (map responseKey fs)).
Proof.
  induction fs as [|f fs IH] using rev_ind; [reflexivity|].
  rewrite groupFields_snoc, IH, (List.map_app responseKey).
  change (map responseKey [f]) with [responseKey f].
  rewrite firstSeen_snoc.
  rewrite get_map.
  assert (Hex : existsb (String.eqb (responseKey f))
                  (firstSeen (map responseKey fs))
                = existsb (String.eqb (responseKey f)) (map responseKey fs)).
  { apply eq_true_iff_eq. rewrite !existsb_exists.
    split; intros (x & Hx & Hk); exists x; split; auto;
      now apply firstSeen_In. }
  rewrite Hex.
  destruct (existsb (String.eqb (responseKey f)) (map responseKey fs))
    eqn:E; simpl.
  - rewrite set_map_present by (auto using firstSeen_NoDup).
    apply map_ext. intros k. unfold group. rewrite List.filter_app. simpl.
    rewrite (String.eqb_sym k).
    destruct (String.eqb_spec (responseKey f) k) as [<-|]; [reflexivity|].
    now rewrite app_nil_r.
  - rewrite set_map_absent by assumption.
    rewrite map_app. simpl. f_equal.
    + apply map_ext_in. intros k Hk. unfold group.
      rewrite List.filter_app. simpl.
      destruct (String.eqb_spec (responseKey f) k) as [<-|];
        [|now rewrite app_nil_r].
      apply (proj1 (firstSeen_In _ _)) in Hk.
      assert (existsb (String.eqb (responseKey f)) (map responseKey fs)
              = true) by (apply existsb_exists; eexists; split;
                          [eassumption|apply String.eqb_refl]).
      congruence.
    + unfold group. rewrite List.filter_app. simpl.
      rewrite String.eqb_refl. fold (group (responseKey f) fs).
      now rewrite existsb_key_group.
Qed.

(** ** Merging a group *)

Lemma mergeFields_snoc g f :
  mergeFields (g ++ [f]) = Some (mergeWith (mergeFields g) f).
Proof. unfold mergeFields. now rewrite fold_left_app. Qed.

Lemma coalesce_single f : coalesce [f] = f.
Proof.
  destruct f as [a nm args ds [ss|]]; unfold coalesce; simpl;
    rewrite ?app_nil_r; now destruct a.
Qed.

Lemma omap_snoc {A B} (h : A -> option B) l x :
  omap h (l ++ [x]) =
  omap h l ++ match h x with Some y => [y] | None => [] end.
Proof. rewrite omap_app. simpl. now destruct (h x). Qed.

Lemma mergeWith_coalesce g f0 f :
  mergeWith (Some (coalesce (g ++ [f0]))) f = coalesce ((g ++ [f0]) ++ [f]).
Proof.
  unfold coalesce, mergeWith. simpl. f_equal.
  - rewrite (rev_app_distr _ [f]). simpl. now destruct (alias f).
  - rewrite (List.map_app name _ [f]). simpl. now rewrite last_last.
  - rewrite (List.map_app arguments _ [f]), concat_app. simpl.
    now rewrite app_nil_r.
  - rewrite (List.map_app directives _ [f]), concat_app. simpl.
    now rewrite app_nil_r.
  - rewrite (omap_snoc selectionSet (g ++ [f0]) f).
    destruct (omap selectionSet (g ++ [f0])) as [|s1 sets];
      destruct (selectionSet f) as [s2|]; simpl;
      rewrite ?app_nil_r; try reflexivity.
    rewrite concat_app. simpl. now rewrite app_nil_r, app_assoc.
Qed.

(** The [reduce] over a group computes [coalesce]. *)
Lemma mergeFields_coalesce g :
  g <> [] -> mergeFields g = Some (coalesce g).
Proof.
  induction g as [|f g IH] using rev_ind; [congruence|]. intros _.
  rewrite mergeFields_snoc.
  destruct g as [|f0 g _] using rev_ind.
  - simpl. now rewrite coalesce_single.
  - rewrite IH by (now destruct g). now rewrite mergeWith_coalesce.
Qed.

Lemma head_omap_alias l a :
  head (omap alias l) = Some a -> exists g, In g l /\ alias g = Some a.
Proof.
  induction l as [|f l IH]; simpl; [discriminate|].
  destruct (alias f) as [b|] eqn:E; simpl.
  - intros [= ->]. eauto.
  - intros H. destruct (IH H) as (g & Hg & Ha). eauto.
Qed.

(** The merged field answers to the key of its group. *)
Lemma responseKey_coalesce k g :
  g <> [] -> (forall f, In f g -> responseKey f = k) ->
  responseKey (coalesce g) = k.
Proof.
  destruct g as [|f g _] using rev_ind; [congruence|]. intros _ Hk.
  assert (Hf : responseKey f = k) by (apply Hk, in_or_app; right; now left).
  unfold responseKey at 1, coalesce. simpl.
  rewrite rev_app_distr, (List.map_app name).
  change (map name [f]) with [name f]. rewrite last_last. simpl.
  unfold responseKey in Hf.
  destruct (alias f) as [a|] eqn:Ea; simpl; [exact Hf|].
  match goal with
  | |- context [head ?l] => destruct (head l) as [a|] eqn:E
  end; [|exact Hf].
  destruct (String.eqb_spec a ""); [exact Hf|].
  apply head_omap_alias in E as (f' & Hin & Ha).
  rewrite <- (Hk f') by (apply in_or_app; left; now apply in_rev).
  unfold responseKey. rewrite Ha.
  destruct (String.eqb_spec a ""); [contradiction|reflexivity].
Qed.

Lemma group_nonempty k fs :
  In k (map responseKey fs) -> group k fs <> [].
Proof.
  intros Hk Hg. apply in_map_iff in Hk as (f & Hf & Hin).
  assert (In f (group k fs)) as H.
  { apply filter_In. split; [assumption|]. now apply String.eqb_eq. }
  rewrite Hg in H. destruct H.
Qed.

Lemma group_key k fs f : In f (group k fs) -> responseKey f = k.
Proof. intros H. apply filter_In in H as [_ H]. now apply String.eqb_eq. Qed.

(** ** The selections the second pass assigns *)

Lemma normalizeSelections_eq selections :
  normalizeSelections selections =
  List.filter (fun s => negb (isField s)) (flatten selections)
  ++ map (fun k => ofField (coalesce (group k (fieldsOf (flatten selections)))))
       (firstSeen (map responseKey (fieldsOf (flatten selections)))).
Proof.
  unfold normalizeSelections, fieldsOf. f_equal.
  rewrite groupFields_firstSeen. unfold values. rewrite List.map_map. simpl.
  set (fs := omap asField (flatten selections)).
  assert (H : forall ks, (forall k, In k ks -> In k (map responseKey fs)) ->
                omap (fun g => ofField <$> mergeFields g)
                  (map (fun k => group k fs) ks)
                = map (fun k => ofField (coalesce (group k fs))) ks).
  { induction ks as [|k ks IH]; intros Hks; simpl; [reflexivity|].
    rewrite mergeFields_coalesce
      by (apply group_nonempty, Hks; now left).
    simpl. f_equal. apply IH. intros; apply Hks. now right. }
  apply H. intros k Hk. now apply firstSeen_In.
Qed.

Lemma asField_ofField f : asField (ofField f) = Some f.
Proof. now destruct f. Qed.




Lemma responseKey_merged fs k :
  In k (firstSeen (map responseKey fs)) ->
  responseKey (coalesce (group k fs)) = k.
Proof.
  intros Hk. apply (proj1 (firstSeen_In _ _)) in Hk.
  apply responseKey_coalesce;
    [now apply group_nonempty|apply group_key].
Qed.

Lemma filter_filter_nil {A} (p r : A -> bool) l :
  (forall x, p x = true -> r x = false) ->
  List.filter r (List.filter p l) = [].
Proof.
  intros H. apply filter_none. intros x Hx.
  apply filter_In in Hx as [_ Hx]. auto.
Qed.



(** ** No annotation survives the second pass of replace-mode *)

Lemma mapM_Forall2 {A B} (f : A -> result B) l l' :
  mapM f l = Ok l' -> List.Forall2 (fun x y => f x = Ok y) l l'.
Proof.
  revert l'. induction l as [|x l IH]; simpl; intros l' H.
  - injection H as <-. constructor.
  - destruct (f x) eqn:Ex; try discriminate. simpl in H.
    destruct (mapM f l) eqn:El; try discriminate.
    injection H as <-. constructor; auto.
Qed.

Lemma computedAmong_stripped ds :
  computedAmong (visitDirectives secondPass_replace ds) = 0.
Proof.
  unfold computedAmong, visitDirectives. simpl.
  rewrite filter_filter_nil; [reflexivity|].
  intros d Hd. now apply negb_true_iff.
Qed.

Lemma list_sum_zero {A} (h : A -> nat) l :
  List.Forall (fun x => h x = 0) l -> list_sum (map h l) = 0.
Proof. induction 1 as [|x l Hx _ IH]; simpl; [reflexivity|lia]. Qed.

Lemma Forall2_Forall_r {A B} (R : A -> B -> Prop) (P : B -> Prop) l l' :
  List.Forall2 R l l' -> (forall x y, In x l -> R x y -> P y) ->
  List.Forall P l'.
Proof.
  induction 1 as [|x y l l' Hxy _ IH]; intros H; constructor.
  - apply (H x); [now left|assumption].
  - apply IH. intros a b Ha. apply H. now right.
Qed.

Lemma secondPass_no_computed n :
  forall s s', visitSelection secondPass_replace n s = Ok s' ->
               computedIn s' = 0.
Proof.
  induction n as [|n IH]; intros s s' H; [discriminate|].
  assert (IHl : forall l l',
             mapM (visitSelection secondPass_replace n) l = Ok l' ->
             list_sum (map computedIn l') = 0).
  { intros l l' Hl. apply list_sum_zero.
    eapply Forall2_Forall_r; [apply mapM_Forall2, Hl|].
    intros x y _ Hxy. eapply IH, Hxy. }
  destruct s as [a nm args ds [sels|]|nm ds|tc ds sels|items];
    simpl in H.
  - destruct (mapM _ _) as [sels'| |] eqn:E; try discriminate.
    injection H as <-. simpl.
    now rewrite computedAmong_stripped, (IHl _ _ E).
  - injection H as <-. simpl. now rewrite computedAmong_stripped.
  - injection H as <-. simpl. now rewrite computedAmong_stripped.
  - destruct (mapM _ _) as [sels'| |] eqn:E; try discriminate.
    injection H as <-. simpl.
    now rewrite computedAmong_stripped, (IHl _ _ E).
  - destruct (mapM _ _) as [items'| |] eqn:E; try discriminate.
    injection H as <-. simpl. now rewrite (IHl _ _ E).
Qed.

Lemma secondPass_definition_no_computed n d d' :
  visitDefinition secondPass_replace n d = Ok d' ->
  computedInDefinition d' = 0.
Proof.
  assert (Hvd : forall vds,
             list_sum
               (map (fun vd => computedAmong (variable_directives vd))
                  (map (visitVariableDefinition secondPass_replace) vds))
             = 0).
  { intros vds. apply list_sum_zero. apply List.Forall_forall.
    intros vd Hvd. apply in_map_iff in Hvd as (vd0 & <- & _).
    apply computedAmong_stripped. }
  assert (Hss : forall l l',
             visitSelectionSet secondPass_replace n l = Ok l' ->
             list_sum (map computedIn l') = 0).
  { intros l l' Hl. apply list_sum_zero.
    eapply Forall2_Forall_r; [apply mapM_Forall2, Hl|].
    intros x y _ Hxy. eapply secondPass_no_computed, Hxy. }
  destruct d; simpl; intros H;
    destruct (visitSelectionSet _ _ _) as [ss'| |] eqn:E;
    try discriminate; injection H as <-; simpl;
    now rewrite Hvd, computedAmong_stripped, (Hss _ _ E).
Qed.

Lemma secondPass_query_no_computed q out :
  visit q secondPass_replace = Ok out -> computedInQuery out = 0.
Proof.
  unfold visit. destruct q as [d|doc]; simpl; intros H.
  - destruct (visitDefinition _ _ d) as [d'| |] eqn:E; try discriminate.
    injection H as <-. simpl.
    eapply secondPass_definition_no_computed, E.
  - destruct (mapM _ _) as [ds| |] eqn:E; try discriminate.
    injection H as <-. simpl. apply list_sum_zero.
    eapply Forall2_Forall_r; [apply mapM_Forall2, E|].
    intros x y _ Hxy. eapply secondPass_definition_no_computed, Hxy.
Qed.

(** C2: whenever replace-mode returns a tree, no directive node of the
    tree is named [computed], at any depth, whatever was spliced in from
    the registry. *)
Theorem replace_leaves_no_computed
    (fuel : nat) (entities : Entities) (q out : Query) :
  replaceDirectivesByFragments fuel entities (Some q) = Ok (Some out) ->
  computedInQuery out = 0.
Proof.
  destruct fuel as [|fuel]; [discriminate|]. simpl.
  destruct (visit q _) as [firstPass| |]; try discriminate. simpl.
  destruct (visit firstPass secondPass_replace) as [out'| |] eqn:E;
    try discriminate.
  intros [= <-]. eapply secondPass_query_no_computed, E.
Qed.

Lemma replace_leaves_no_computed_witness :
  computedInQuery
    (Sample.operation
       [Field None "initials" [] [Sample.computed "User"] None]) = 1
  /\ computedInQuery
       (Sample.operation [Sample.leaf "firstName"; Sample.leaf "lastName"])
     = 0.
Proof.
  split; [reflexivity|].
  apply (replace_leaves_no_computed 3 Sample.entities
           (Sample.operation
              [Field None "initials" [] [Sample.computed "User"] None])).
  reflexivity.
Defined.

(** ** The second passes return *)

Lemma heights_le N l :
  heights l <= N <-> (forall x, In x l -> height x <= N).
Proof.
  unfold heights. rewrite list_max_le, List.Forall_forall. split.
  - intros H x Hx. apply H. now apply in_map.
  - intros H k Hk. apply in_map_iff in Hk as (x & <- & Hx). auto.
Qed.

Lemma flatten_In y l :
  In y (flatten l) <->
  exists x, In x l /\ (x = y /\ isArr x = false
                       \/ exists items, x = Arr items /\ In y items).
Proof.
  unfold flatten. rewrite in_flat_map. split.
  - intros (x & Hx & Hy). exists x. split; [assumption|].
    destruct x; simpl in Hy; try (destruct Hy as [<-|[]]; now left).
    right. eauto.
  - intros (x & Hx & [[Hxy Hn]|(items & Hxy & Hy)]); exists x;
      (split; [assumption|]); subst; [|assumption].
    destruct y; simpl; try (now left). discriminate.
Qed.

Lemma flatten_height N l :
  (forall x, In x l -> height x <= N) ->
  forall y, In y (flatten l) -> height y <= N.
Proof.
  intros H y Hy.
  apply flatten_In in Hy as (x & Hx & [[<- _]|(items & -> & Hy)]); auto.
  specialize (H _ Hx). simpl in H.
  pose proof (heights_In _ _ Hy). unfold heights in *. lia.
Qed.

Lemma In_omap {A B} (h : A -> option B) l y :
  In y (omap h l) <-> exists x, In x l /\ h x = Some y.
Proof.
  rewrite <- list_elem_of_In, list_elem_of_omap.
  split; intros (x & Hx & Hy); exists x; split; auto;
    now apply list_elem_of_In.
Qed.

Lemma fieldsOf_In f l : In f (fieldsOf l) <-> In (ofField f) l.
Proof.
  unfold fieldsOf. rewrite In_omap.
  split.
  - intros (x & Hx & Hf). destruct x; try discriminate.
    injection Hf as <-. exact Hx.
  - intros H. exists (ofField f). split; [assumption|].
    apply asField_ofField.
Qed.


Lemma normalizeSelections_In y l :
  In y (normalizeSelections l) ->
  (In y (flatten l) /\ isField y = false)
  \/ exists k, In k (map responseKey (fieldsOf (flatten l)))
               /\ y = ofField (coalesce (group k (fieldsOf (flatten l)))).
Proof.
  rewrite normalizeSelections_eq, in_app_iff, filter_In, in_map_iff.
  intros [[Hy Hf]|(k & <- & Hk)].
  - left. split; [assumption|]. now apply negb_true_iff.
  - right. exists k. split; [now apply firstSeen_In|reflexivity].
Qed.


Lemma mapM_total {A B} (f : A -> result B) l :
  (forall x, In x l -> exists y, f x = Ok y) -> exists l', mapM f l = Ok l'.
Proof.
  induction l as [|x l IH]; intros H; simpl; [eauto|].
  destruct (H x (or_introl eq_refl)) as [y ->].
  destruct IH as [l' ->]; [intros; apply H; now right|]. simpl. eauto.
Qed.

Section Returning.
Variable v : Visitor.
Hypothesis v_field : forall f, enter_Field v f = Ok Undefined.
Hypothesis v_height :
  forall N l, (forall x, In x l -> height x <= N) ->
              forall y, In y (enter_SelectionSet v l) -> height y <= N.

Lemma visitSelection_returns n :
  forall s, height s <= n -> exists s', visitSelection v n s = Ok s'.
Proof.
  induction n as [|n IH]; intros s Hs.
  { pose proof (height_pos s). lia. }
  assert (IHl : forall l, heights l <= n ->
                          exists l', mapM (visitSelection v n)
                                       (enter_SelectionSet v l) = Ok l').
  { intros l Hl. apply mapM_total. intros x Hx. apply IH.
    eapply v_height; [|exact Hx]. now apply heights_le. }
  destruct s as [a nm args ds [sels|]|nm ds|tc ds sels|items];
    simpl in *; rewrite ?v_field; simpl; eauto.
  - destruct (IHl sels) as [l' ->]; [unfold heights; lia|].
    simpl. eauto.
  - destruct (IHl sels) as [l' ->]; [unfold heights; lia|].
    simpl. eauto.
  - destruct (mapM_total (visitSelection v n) items) as [l' ->];
      [|simpl; eauto].
    intros x Hx. apply IH. pose proof (heights_In _ _ Hx).
    unfold heights in *. lia.
Qed.

Lemma visitDefinition_returns n d :
  heightDefinition d <= n -> exists d', visitDefinition v n d = Ok d'.
Proof.
  assert (Hss : forall l, heights l <= n ->
                          exists l', visitSelectionSet v n l = Ok l').
  { intros l Hl. apply mapM_total. intros x Hx.
    apply visitSelection_returns.
    eapply v_height; [|exact Hx]. now apply heights_le. }
  destruct d; simpl; intros Hn;
    destruct (Hss _ Hn) as [l' ->]; simpl; eauto.
Qed.

Lemma visit_returns q : exists out, visit q v = Ok out.
Proof.
  unfold visit. destruct q as [d|doc]; simpl.
  - destruct (visitDefinition_returns (heightDefinition d) d) as [d' ->];
      [lia|]. simpl. eauto.
  - destruct (mapM_total
                (visitDefinition v
                   (list_max (map heightDefinition (definitions doc))))
                (definitions doc)) as [ds ->]; [|simpl; eauto].
    intros d Hd. apply visitDefinition_returns.
    clear -Hd. induction (definitions doc) as [|x l IH];
      destruct Hd; simpl; [subst; lia|]. specialize (IH H). lia.
Qed.
End Returning.


Lemma secondPass_add_returns q :
  exists out, visit q secondPass_add = Ok out.
Proof. apply visit_returns; [reflexivity|]. apply flatten_height. Qed.

(** ** Shapes of trees *)

Lemma forallb_Forall_impl {A} (p r : A -> bool) l :
  List.Forall (fun x => p x = true -> r x = true) l ->
  forallb p l = true -> forallb r l = true.
Proof.
  induction 1 as [|x l Hx _ IH]; simpl; [reflexivity|].
  rewrite !andb_true_iff. intros [? ?]. auto.
Qed.

Lemma clean_shallow s : clean s = true -> shallow s = true.
Proof.
  induction s using Selection_nested_ind; simpl; try reflexivity;
    try discriminate; now apply forallb_Forall_impl.
Qed.

Lemma clean_not_Arr s : clean s = true -> isArr s = false.
Proof. now destruct s. Qed.

Lemma flatten_nodes l :
  forallb shallow l = true ->
  forall y, In y (flatten l) -> isArr y = false /\ shallow y = true.
Proof.
  intros Hl y Hy. rewrite forallb_forall in Hl.
  apply flatten_In in Hy as (x & Hx & [[<- Hn]|(items & -> & Hy)]).
  - auto.
  - specialize (Hl _ Hx). simpl in Hl. rewrite forallb_forall in Hl.
    split; [apply clean_not_Arr|apply clean_shallow]; auto.
Qed.

Lemma forallb_concat {A} (p : A -> bool) ls :
  (forall l, In l ls -> forallb p l = true) -> forallb p (concat ls) = true.
Proof.
  intros H. apply forallb_forall. intros x Hx.
  apply in_concat in Hx as (l & Hl & Hx).
  specialize (H l Hl). rewrite forallb_forall in H. auto.
Qed.

Lemma coalesce_shallow g :
  (forall f, In f g -> shallow (ofField f) = true) ->
  shallow (ofField (coalesce g)) = true.
Proof.
  intros H. unfold coalesce, ofField.
  cbn [alias name arguments directives selectionSet].
  destruct (omap selectionSet g) as [|s sets] eqn:E; cbn [shallow];
    [reflexivity|].
  rewrite <- E. apply forallb_concat. intros l Hl.
  apply In_omap in Hl as (f & Hf & Hl). specialize (H f Hf).
  destruct f as [a nm args ds ss]; simpl in *. now subst ss.
Qed.

Lemma normalizeSelections_nodes l :
  forallb shallow l = true ->
  forall y, In y (normalizeSelections l) ->
            isArr y = false /\ shallow y = true.
Proof.
  intros Hl y Hy.
  apply normalizeSelections_In in Hy as [[Hy _]|(k & Hk & ->)].
  - now apply (flatten_nodes l).
  - split; [reflexivity|]. apply coalesce_shallow.
    intros f Hf. apply filter_In in Hf as [Hf _].
    apply fieldsOf_In in Hf. now apply (flatten_nodes l).
Qed.

Lemma merged_keys fs :
  map responseKey
    (map (fun k => coalesce (group k fs)) (firstSeen (map responseKey fs)))
  = firstSeen (map responseKey fs).
Proof.
  rewrite List.map_map.
  rewrite <- (map_id (firstSeen (map responseKey fs))) at 2.
  apply map_ext_in. intros k Hk. now apply responseKey_merged.
Qed.

Lemma normalizeSelections_Tidy l :
  (forall y, In y (flatten l) -> isArr y = false) ->
  Tidy (normalizeSelections l).
Proof.
  intros H. rewrite normalizeSelections_eq.
  exists (List.filter (fun s => negb (isField s)) (flatten l)),
    (map (fun k => coalesce (group k (fieldsOf (flatten l))))
       (firstSeen (map responseKey (fieldsOf (flatten l))))).
  split; [now rewrite List.map_map|]. split.
  - intros x Hx. apply filter_In in Hx as [Hx Hf].
    split; [now apply negb_true_iff|auto].
  - rewrite merged_keys. apply firstSeen_NoDup.
Qed.

Lemma flatten_no_Arr l :
  (forall x, In x l -> isArr x = false) -> flatten l = l.
Proof.
  induction l as [|x l IH]; intros H; [reflexivity|].
  unfold flatten in *. simpl. rewrite IH by (intros; apply H; now right).
  specialize (H x (or_introl eq_refl)). now destruct x.
Qed.

Lemma fieldsOf_app l1 l2 : fieldsOf (l1 ++ l2) = fieldsOf l1 ++ fieldsOf l2.
Proof. unfold fieldsOf. apply omap_app. Qed.

Lemma fieldsOf_cons x l :
  fieldsOf (x :: l) =
  match asField x with Some f => f :: fieldsOf l | None => fieldsOf l end.
Proof. reflexivity. Qed.

Lemma fieldsOf_ofField fs : fieldsOf (map ofField fs) = fs.
Proof.
  induction fs as [|f fs IH]; [reflexivity|].
  change (map ofField (f :: fs)) with (ofField f :: map ofField fs).
  now rewrite fieldsOf_cons, asField_ofField, IH.
Qed.

Lemma fieldsOf_none l :
  (forall x, In x l -> isField x = false) -> fieldsOf l = [].
Proof.
  induction l as [|x l IH]; intros H; [reflexivity|].
  rewrite fieldsOf_cons, IH by (intros; apply H; now right).
  specialize (H x (or_introl eq_refl)). now destruct x.
Qed.

Lemma firstSeen_NoDup_id ks : List.NoDup ks -> firstSeen ks = ks.
Proof.
  induction 1 as [|k ks Hk _ IH]; simpl; [reflexivity|].
  rewrite IH. f_equal. apply filter_all. intros x Hx.
  apply negb_true_iff, String.eqb_neq. congruence.
Qed.

Lemma group_single fs :
  List.NoDup (map responseKey fs) ->
  map (fun k => coalesce (group k fs)) (map responseKey fs) = fs.
Proof.
  intros Hnd. rewrite List.map_map.
  transitivity (map (fun f => f) fs); [|apply map_id].
  apply map_ext_in. intros f Hf.
  enough (group (responseKey f) fs = [f]) as ->
      by apply coalesce_single.
  clear -Hnd Hf. unfold group.
  induction fs as [|x fs IH]; [destruct Hf|].
  simpl in *. inversion Hnd as [|? ? Hx Hnd']; subst.
  destruct Hf as [->|Hf].
  - rewrite String.eqb_refl. f_equal. apply filter_none.
    intros y Hy. apply String.eqb_neq. intros E. apply Hx.
    rewrite <- E. now apply in_map.
  - destruct (String.eqb_spec (responseKey x) (responseKey f)) as [E|];
      [|now apply IH].
    exfalso. apply Hx. rewrite E. now apply in_map.
Qed.

(** On a list already in that order the second pass assigns the list
    itself. *)
Lemma Tidy_fixed l : Tidy l -> normalizeSelections l = l.
Proof.
  intros (nf & fs & -> & Hnf & Hnd).
  assert (Hflat : flatten (nf ++ map ofField fs) = nf ++ map ofField fs).
  { apply flatten_no_Arr. intros x Hx. apply in_app_iff in Hx as [Hx|Hx].
    - now apply Hnf.
    - apply in_map_iff in Hx as (f & <- & _). reflexivity. }
  rewrite normalizeSelections_eq, Hflat, fieldsOf_app, fieldsOf_ofField.
  rewrite fieldsOf_none by (intros; now apply Hnf). simpl.
  rewrite firstSeen_NoDup_id by assumption.
  rewrite List.filter_app.
  rewrite (filter_all _ nf)
    by (intros x Hx; apply negb_true_iff; now apply Hnf).
  rewrite (filter_none _ (map ofField fs))
    by (intros x Hx; apply in_map_iff in Hx as (f & <- & _); reflexivity).
  rewrite app_nil_r. f_equal.
  rewrite <- (List.map_map (fun k => coalesce (group k fs)) ofField).
  now rewrite group_single.
Qed.

(** ** The second pass of replace-mode on its own output *)

Lemma secondPass_field n f y :
  visited2 n (ofField f) y ->
  exists f', y = ofField f' /\ responseKey f' = responseKey f.
Proof.
  destruct n as [|n]; [discriminate|].
  destruct f as [a nm args ds [sels|]]; simpl; intros H.
  - destruct (mapM _ _) as [sels'| |]; try discriminate.
    injection H as <-.
    now exists (Build_FieldNode a nm args
                  (visitDirectives secondPass_replace ds) (Some sels')).
  - injection H as <-.
    now exists (Build_FieldNode a nm args
                  (visitDirectives secondPass_replace ds) None).
Qed.

Lemma secondPass_not_field n x y :
  visited2 n x y -> isField x = false -> isArr x = false ->
  isField y = false /\ isArr y = false.
Proof.
  destruct n as [|n]; [discriminate|].
  destruct x as [| |tc ds sels|]; simpl; try discriminate; intros H _ _.
  - now injection H as <-.
  - destruct (mapM _ _); try discriminate. now injection H as <-.
Qed.

Lemma secondPass_fields n fs l' :
  List.Forall2 (visited2 n) (map ofField fs) l' ->
  exists fs', l' = map ofField fs'
              /\ map responseKey fs' = map responseKey fs.
Proof.
  revert l'. induction fs as [|f fs IH]; simpl; intros l' H;
    inversion H as [|? y ? l'' Hy Hl]; subst.
  - now exists [].
  - destruct (secondPass_field _ _ _ Hy) as (f' & -> & Hk).
    destruct (IH _ Hl) as (fs' & -> & Hks).
    exists (f' :: fs'). simpl. now rewrite Hk, Hks.
Qed.

Lemma secondPass_Tidy n l l' :
  List.Forall2 (visited2 n) l l' -> Tidy l -> Tidy l'.
Proof.
  intros H (nf & fs & -> & Hnf & Hnd).
  apply List.Forall2_app_inv_l in H as (nf' & l2 & Hnf' & Hfs & ->).
  destruct (secondPass_fields _ _ _ Hfs) as (fs' & -> & Hks).
  exists nf', fs'. split; [reflexivity|]. split; [|now rewrite Hks].
  clear -Hnf Hnf'. revert Hnf.
  induction Hnf' as [|x y nf nf' Hxy _ IH]; intros Hnf z Hz;
    [destruct Hz|].
  destruct Hz as [<-|Hz].
  - destruct (Hnf x (or_introl eq_refl)).
    eapply secondPass_not_field; eauto.
  - apply IH; [|assumption]. intros; apply Hnf. now right.
Qed.

Lemma visitDirectives_twice ds :
  visitDirectives secondPass_replace
    (visitDirectives secondPass_replace ds)
  = visitDirectives secondPass_replace ds.
Proof.
  unfold visitDirectives. apply filter_all. intros d Hd.
  now apply filter_In in Hd as [_ Hd].
Qed.

Lemma Forall2_In_r {A B} (R : A -> B -> Prop) l l' y :
  List.Forall2 R l l' -> In y l' -> exists x, In x l /\ R x y.
Proof.
  induction 1 as [|a b l l' Hab _ IH]; intros []; subst.
  - exists a. split; [now left|assumption].
  - destruct (IH H) as (x & Hx & Hxy). exists x. split; [now right|auto].
Qed.

(** What the pass returns for a tree with arrays nested one level at
    most, it returns unchanged when given it again. *)
Lemma secondPass_fixed n :
  forall s s',
    isArr s = false -> shallow s = true -> visited2 n s s' ->
    forall m, height s' <= m -> visited2 m s' s'.
Proof.
  induction n as [|n IH]; intros s s' Hs Hsh H m Hm; [discriminate|].
  assert (IHl : forall sels sels' m',
             forallb shallow sels = true ->
             mapM (visitSelection secondPass_replace n)
               (normalizeSelections sels) = Ok sels' ->
             heights sels' <= m' ->
             mapM (visitSelection secondPass_replace m')
               (normalizeSelections sels') = Ok sels').
  { intros sels sels' m' Hsels Hv Hm'.
    apply mapM_Forall2 in Hv.
    rewrite Tidy_fixed.
    - apply mapM_id. apply List.Forall_forall. intros y Hy.
      destruct (Forall2_In_r _ _ _ _ Hv Hy) as (x & Hx & Hxy).
      destruct (normalizeSelections_nodes _ Hsels _ Hx).
      eapply IH; eauto. pose proof (heights_In _ _ Hy). lia.
    - eapply secondPass_Tidy; [exact Hv|].
      apply normalizeSelections_Tidy. intros y Hy.
      now apply (flatten_nodes sels). }
  destruct m as [|m]; [pose proof (height_pos s'); lia|].
  destruct s as [a nm args ds [sels|]|nm ds|tc ds sels|items];
    simpl in H, Hsh; try discriminate.
  - destruct (mapM _ _) as [sels'| |] eqn:E; try discriminate.
    injection H as <-. simpl in *.
    rewrite (IHl _ _ m Hsh E) by (unfold heights; lia). simpl.
    now rewrite visitDirectives_twice.
  - injection H as <-. simpl. now rewrite visitDirectives_twice.
  - injection H as <-. simpl. now rewrite visitDirectives_twice.
  - destruct (mapM _ _) as [sels'| |] eqn:E; try discriminate.
    injection H as <-. simpl in *.
    rewrite (IHl _ _ m Hsh E) by (unfold heights; lia). simpl.
    now rewrite visitDirectives_twice.
Qed.

Lemma secondPass_selectionSet_fixed n sels sels' m :
  forallb shallow sels = true ->
  visitSelectionSet secondPass_replace n sels = Ok sels' ->
  heights sels' <= m ->
  visitSelectionSet secondPass_replace m sels' = Ok sels'.
Proof.
  unfold visitSelectionSet. simpl. intros Hsels Hv Hm.
  apply mapM_Forall2 in Hv. rewrite Tidy_fixed.
  - apply mapM_id. apply List.Forall_forall. intros y Hy.
    destruct (Forall2_In_r _ _ _ _ Hv Hy) as (x & Hx & Hxy).
    destruct (normalizeSelections_nodes _ Hsels _ Hx).
    eapply secondPass_fixed; eauto. pose proof (heights_In _ _ Hy). lia.
  - eapply secondPass_Tidy; [exact Hv|].
    apply normalizeSelections_Tidy. intros y Hy.
    now apply (flatten_nodes sels).
Qed.

Lemma secondPass_definition_fixed n d d' m :
  forallb shallow (selectionsOfDefinition d) = true ->
  visitDefinition secondPass_replace n d = Ok d' ->
  heightDefinition d' <= m ->
  visitDefinition secondPass_replace m d' = Ok d'.
Proof.
  assert (Hvd : forall vds,
             map (visitVariableDefinition secondPass_replace)
               (map (visitVariableDefinition secondPass_replace) vds)
             = map (visitVariableDefinition secondPass_replace) vds).
  { intros vds. rewrite List.map_map. apply map_ext. intros vd.
    unfold visitVariableDefinition. simpl.
    now rewrite visitDirectives_twice. }
  destruct d; simpl; intros Hsh H Hm;
    destruct (visitSelectionSet _ _ _) as [ss'| |] eqn:E;
    try discriminate; injection H as <-; simpl in *;
    rewrite (secondPass_selectionSet_fixed _ _ _ _ Hsh E Hm); simpl;
    now rewrite Hvd, visitDirectives_twice.
Qed.

Lemma secondPass_query_fixed q out :
  shallowQuery q = true ->
  visit q secondPass_replace = Ok out ->
  visit out secondPass_replace = Ok out.
Proof.
  unfold visit. destruct q as [d|doc]; simpl; intros Hsh H.
  - destruct (visitDefinition _ _ d) as [d'| |] eqn:E; try discriminate.
    injection H as <-. simpl.
    now rewrite (secondPass_definition_fixed _ _ _ _ Hsh E).
  - destruct (mapM _ _) as [ds| |] eqn:E; try discriminate.
    injection H as <-. simpl.
    apply mapM_Forall2 in E. rewrite mapM_id; [reflexivity|].
    apply List.Forall_forall. intros d' Hd'.
    destruct (Forall2_In_r _ _ _ _ E Hd') as (d & Hd & Hdd').
    rewrite forallb_forall in Hsh.
    eapply secondPass_definition_fixed; eauto.
    clear -Hd'. induction ds as [|x l IH]; destruct Hd'; simpl;
      [subst; lia|]. specialize (IH H). lia.
Qed.

(** ** The trees the first pass hands to the second *)

Lemma Forall2_forallb_r {A B} (R : A -> B -> Prop) (p : B -> bool) l l' :
  List.Forall2 R l l' -> (forall x y, In x l -> R x y -> p y = true) ->
  forallb p l' = true.
Proof.
  intros H HR. apply forallb_forall. intros y Hy.
  destruct (Forall2_In_r _ _ _ _ H Hy) as (x & Hx & Hxy). eauto.
Qed.

Section SecondPassShape.
Variable v : Visitor.
Hypothesis v_field : forall f, enter_Field v f = Ok Undefined.
Hypothesis v_nodes :
  forall l, forallb shallow l = true ->
            forall y, In y (enter_SelectionSet v l) ->
                      isArr y = false /\ shallow y = true.

Lemma flattened_clean n :
  forall s s',
    isArr s = false -> shallow s = true -> visitSelection v n s = Ok s' ->
    clean s' = true.
Proof.
  induction n as [|n IH]; intros s s' Hs Hsh H; [discriminate|].
  assert (IHl : forall sels sels',
             forallb shallow sels = true ->
             mapM (visitSelection v n) (enter_SelectionSet v sels)
               = Ok sels' ->
             forallb clean sels' = true).
  { intros sels sels' Hsels Hv. apply mapM_Forall2 in Hv.
    eapply Forall2_forallb_r; [exact Hv|]. intros x y Hx Hxy.
    destruct (v_nodes _ Hsels _ Hx) as [Ha Hb].
    exact (IH x y Ha Hb Hxy). }
  destruct s as [a nm args ds [sels|]|nm ds|tc ds sels|items];
    simpl in H, Hsh; rewrite ?v_field in H; simpl in H;
    try discriminate.
  - destruct (mapM _ _) as [sels'| |] eqn:E; try discriminate.
    injection H as <-. simpl. eauto.
  - now injection H as <-.
  - now injection H as <-.
  - destruct (mapM _ _) as [sels'| |] eqn:E; try discriminate.
    injection H as <-. simpl. eauto.
Qed.

Lemma flattened_definition_clean n d d' :
  forallb shallow (selectionsOfDefinition d) = true ->
  visitDefinition v n d = Ok d' ->
  forallb clean (selectionsOfDefinition d') = true.
Proof.
  assert (Hss : forall sels sels',
             forallb shallow sels = true ->
             visitSelectionSet v n sels = Ok sels' ->
             forallb clean sels' = true).
  { intros sels sels' Hsels Hv. apply mapM_Forall2 in Hv.
    eapply Forall2_forallb_r; [exact Hv|]. intros x y Hx Hxy.
    destruct (v_nodes _ Hsels _ Hx) as [Ha Hs].
    exact (flattened_clean n x y Ha Hs Hxy). }
  destruct d; simpl; intros Hsh H;
    destruct (visitSelectionSet _ _ _) as [ss'| |] eqn:E;
    try discriminate; injection H as <-; simpl; eauto.
Qed.

Lemma flattened_query_clean q out :
  shallowQuery q = true -> visit q v = Ok out -> cleanQuery out = true.
Proof.
  unfold visit. destruct q as [d|doc]; simpl; intros Hsh H.
  - destruct (visitDefinition _ _ d) as [d'| |] eqn:E; try discriminate.
    injection H as <-. simpl. eapply flattened_definition_clean; eauto.
  - destruct (mapM _ _) as [ds| |] eqn:E; try discriminate.
    injection H as <-. simpl. apply mapM_Forall2 in E.
    eapply Forall2_forallb_r; [exact E|]. intros d d' Hd Hdd'.
    rewrite forallb_forall in Hsh.
    exact (flattened_definition_clean _ d d' (Hsh d Hd) Hdd').
Qed.
End SecondPassShape.

Lemma secondPass_query_clean q out :
  shallowQuery q = true -> visit q secondPass_replace = Ok out ->
  cleanQuery out = true.
Proof.
  apply flattened_query_clean; [reflexivity|].
  apply normalizeSelections_nodes.
Qed.

Lemma secondPass_add_query_clean q out :
  shallowQuery q = true -> visit q secondPass_add = Ok out ->
  cleanQuery out = true.
Proof. apply flattened_query_clean; [reflexivity|]. apply flatten_nodes. Qed.

Section FirstPassShape.
Variable v : Visitor.
Hypothesis v_selectionSet : forall sels, enter_SelectionSet v sels = sels.
Hypothesis v_replacement :
  forall f nodes, clean (ofField f) = true ->
                  enter_Field v f = Ok (Replacement nodes) ->
                  forallb clean nodes = true.

Lemma firstPass_shallow n :
  forall s s', clean s = true -> visitSelection v n s = Ok s' ->
               shallow s' = true.
Proof.
  induction n as [|n IH]; intros s s' Hs H; [discriminate|].
  assert (IHl : forall sels sels',
             forallb clean sels = true ->
             mapM (visitSelection v n) sels = Ok sels' ->
             forallb shallow sels' = true).
  { intros sels sels' Hsels Hv. apply mapM_Forall2 in Hv.
    eapply Forall2_forallb_r; [exact Hv|]. intros x y Hx Hxy.
    rewrite forallb_forall in Hsels. eauto. }
  destruct s as [a nm args ds [sels|]|nm ds|tc ds sels|items];
    simpl in H, Hs; try discriminate.
  - destruct (enter_Field v _) as [[|nodes]| |] eqn:Ef;
      simpl in H; try discriminate.
    + rewrite v_selectionSet in H.
      destruct (mapM _ _) as [sels'| |] eqn:E; try discriminate.
      injection H as <-. simpl. eauto.
    + injection H as <-. simpl.
      eapply v_replacement; [|exact Ef]. exact Hs.
  - destruct (enter_Field v _) as [[|nodes]| |] eqn:Ef;
      simpl in H; try discriminate; injection H as <-; simpl;
      [reflexivity|].
    eapply v_replacement; [|exact Ef]. reflexivity.
  - now injection H as <-.
  - rewrite v_selectionSet in H.
    destruct (mapM _ _) as [sels'| |] eqn:E; try discriminate.
    injection H as <-. simpl. eauto.
Qed.

Lemma firstPass_definition_shallow n d d' :
  forallb clean (selectionsOfDefinition d) = true ->
  visitDefinition v n d = Ok d' ->
  forallb shallow (selectionsOfDefinition d') = true.
Proof.
  assert (Hss : forall sels sels',
             forallb clean sels = true ->
             visitSelectionSet v n sels = Ok sels' ->
             forallb shallow sels' = true).
  { intros sels sels' Hsels Hv. unfold visitSelectionSet in Hv.
    rewrite v_selectionSet in Hv. apply mapM_Forall2 in Hv.
    eapply Forall2_forallb_r; [exact Hv|]. intros x y Hx Hxy.
    rewrite forallb_forall in Hsels.
    exact (firstPass_shallow n x y (Hsels x Hx) Hxy). }
  destruct d; simpl; intros Hc H;
    destruct (visitSelectionSet _ _ _) as [ss'| |] eqn:E;
    try discriminate; injection H as <-; simpl; eauto.
Qed.

Lemma firstPass_query_shallow q firstPass :
  cleanQuery q = true -> visit q v = Ok firstPass ->
  shallowQuery firstPass = true.
Proof.
  unfold visit. destruct q as [d|doc]; simpl; intros Hc H.
  - destruct (visitDefinition _ _ d) as [d'| |] eqn:E;
      try discriminate.
    injection H as <-. simpl.
    eapply firstPass_definition_shallow; eauto.
  - destruct (mapM _ _) as [ds| |] eqn:E; try discriminate.
    injection H as <-. simpl. apply mapM_Forall2 in E.
    eapply Forall2_forallb_r; [exact E|]. intros d d' Hd Hdd'.
    rewrite forallb_forall in Hc.
    exact (firstPass_definition_shallow _ d d' (Hc d Hd) Hdd').
Qed.
End FirstPassShape.

Lemma firstPass_replace_replacement (entities : Entities) fuel :
  cleanEntities entities ->
  (forall q out,
      cleanQuery q = true ->
      replaceDirectivesByFragments fuel entities (Some q) = Ok (Some out) ->
      cleanQuery out = true) ->
  forall f nodes,
    clean (ofField f) = true ->
    enter_Field (firstPass_replace (replaceDirectiveByFragment fuel entities))
      f = Ok (Replacement nodes) ->
    forallb clean nodes = true.
Proof.
  intros Hent IH f nodes _. simpl.
  destruct (annotated f); simpl; [|discriminate].
  unfold replaceDirectiveByFragment, resolveFragment.
  destruct (getDirectiveType _) as [t| |]; simpl; try discriminate.
  destruct (entities !! t) as [entityType|] eqn:Et; try discriminate.
  destruct (fields entityType !! name f) as [entityField|] eqn:Ef;
    try discriminate.
  destruct (dependencies entityField) as [doc|] eqn:Ed;
    [|destruct fuel; discriminate].
  specialize (Hent _ _ _ _ _ Et Ef Ed).
  unfold cleanQuery in Hent.
  destruct (definitions doc) as [|d ds] eqn:Edoc;
    [destruct fuel; discriminate|]. simpl in Hent |- *.
  apply andb_true_iff in Hent as [Hd _].
  destruct (replaceDirectivesByFragments fuel entities
              (Some (ADefinition d))) as [[out|]| |] eqn:Er;
    try discriminate.
  apply (IH (ADefinition d) out Hd) in Er.
  destruct out as [[]|]; simpl; intros H'; try discriminate;
    injection H' as <-; exact Er.
Qed.

(** Replace-mode returns trees as parsed when it is given such trees. *)
Lemma replace_clean (entities : Entities) :
  cleanEntities entities ->
  forall fuel q out,
    cleanQuery q = true ->
    replaceDirectivesByFragments fuel entities (Some q) = Ok (Some out) ->
    cleanQuery out = true.
Proof.
  intros Hent fuel.
  induction fuel as [|fuel IH]; intros q out Hq H; [discriminate|].
  simpl in H.
  destruct (visit q _) as [firstPass| |] eqn:E1; try discriminate.
  simpl in H.
  destruct (visit firstPass _) as [out'| |] eqn:E2; try discriminate.
  injection H as <-.
  eapply secondPass_query_clean; [|exact E2].
  eapply firstPass_query_shallow; [| |exact Hq|exact E1];
    [reflexivity|].
  now apply firstPass_replace_replacement.
Qed.

Lemma replace_firstPass_shallow (entities : Entities) fuel q firstPass :
  cleanEntities entities ->
  cleanQuery q = true ->
  visit q (firstPass_replace (replaceDirectiveByFragment fuel entities))
    = Ok firstPass ->
  shallowQuery firstPass = true.
Proof.
  intros Hent Hq H.
  eapply firstPass_query_shallow; [| |exact Hq|exact H]; [reflexivity|].
  apply firstPass_replace_replacement; [assumption|].
  now apply replace_clean.
Qed.

Lemma Sample_entities_clean : cleanEntities Sample.entities.
Proof.
  unfold cleanEntities, Sample.entities.
  intros type entityType fieldName entityField doc Ht Hf Hd.
  apply lookup_insert_Some in Ht as [[_ <-]|[_ Ht]];
    [|rewrite lookup_empty in Ht; discriminate Ht].
  simpl in Hf.
  repeat (apply lookup_insert_Some in Hf as [[_ <-]|[_ Hf]];
          [simpl in Hd; try discriminate Hd; injection Hd as <-;
           reflexivity|]).
  rewrite lookup_empty in Hf. discriminate Hf.
Qed.



(** ** Augment-mode *)

Lemma firstPass_add_replacement (entities : Entities) fuel :
  cleanEntities entities ->
  (forall q out,
      cleanQuery q = true ->
      addFragmentsFromDirectives fuel entities (Some q) = Ok (Some out) ->
      cleanQuery out = true) ->
  forall f nodes,
    clean (ofField f) = true ->
    enter_Field (firstPass_add (addFragmentToNode fuel entities)) f
      = Ok (Replacement nodes) ->
    forallb clean nodes = true.
Proof.
  intros Hent IH f nodes Hf. simpl.
  destruct (annotated f); simpl; [|discriminate].
  unfold addFragmentToNode, resolveFragment.
  destruct (getDirectiveType _) as [t| |]; simpl; try discriminate.
  destruct (entities !! t) as [entityType|] eqn:Et; try discriminate.
  destruct (fields entityType !! name f) as [entityField|] eqn:Ef;
    try discriminate.
  destruct (dependencies entityField) as [doc|] eqn:Ed;
    [|destruct fuel; discriminate].
  specialize (Hent _ _ _ _ _ Et Ef Ed).
  unfold cleanQuery in Hent.
  destruct (definitions doc) as [|d ds] eqn:Edoc;
    [destruct fuel; discriminate|]. simpl in Hent |- *.
  apply andb_true_iff in Hent as [Hd _].
  destruct (addFragmentsFromDirectives fuel entities
              (Some (ADefinition d))) as [[out|]| |] eqn:Er;
    try discriminate.
  apply (IH (ADefinition d) out Hd) in Er.
  destruct out as [[]|]; simpl; intros H'; try discriminate;
    injection H' as <-; cbn [forallb]; rewrite Hf; exact Er.
Qed.

(** Augment-mode returns trees as parsed when it is given such trees. *)
Lemma add_clean (entities : Entities) :
  cleanEntities entities ->
  forall fuel q out,
    cleanQuery q = true ->
    addFragmentsFromDirectives fuel entities (Some q) = Ok (Some out) ->
    cleanQuery out = true.
Proof.
  intros Hent fuel.
  induction fuel as [|fuel IH]; intros q out Hq H; [discriminate|].
  simpl in H.
  destruct (visit q _) as [firstPass| |] eqn:E1; try discriminate.
  simpl in H.
  destruct (visit firstPass _) as [out'| |] eqn:E2; try discriminate.
  injection H as <-.
  eapply secondPass_add_query_clean; [|exact E2].
  eapply firstPass_query_shallow; [| |exact Hq|exact E1];
    [reflexivity|].
  now apply firstPass_add_replacement.
Qed.

Lemma visitDirectives_add ds : visitDirectives secondPass_add ds = ds.
Proof. now apply visitDirectives_none. Qed.

(** The second pass of augment-mode leaves a tree without arrays as it
    is. *)
Lemma secondPass_add_clean_unchanged m :
  forall s s', clean s = true ->
               visitSelection secondPass_add m s = Ok s' -> s' = s.
Proof.
  induction m as [|m IH]; intros s s' Hs H; [discriminate|].
  assert (IHl : forall sels sels',
             forallb clean sels = true ->
             mapM (visitSelection secondPass_add m) (flatten sels)
               = Ok sels' ->
             sels' = sels).
  { intros sels sels' Hsels Hv.
    rewrite flatten_no_Arr in Hv.
    2:{ intros x Hx. rewrite forallb_forall in Hsels.
        now apply clean_not_Arr, Hsels. }
    revert sels' Hv. induction sels as [|x sels IHs]; simpl; intros sels' Hv.
    - now injection Hv as <-.
    - apply andb_true_iff in Hsels as [Hx Hsels].
      destruct (visitSelection secondPass_add m x) as [y| |] eqn:Ey;
        try discriminate. simpl in Hv.
      destruct (mapM _ sels) as [ys| |] eqn:Eys; try discriminate.
      injection Hv as <-. f_equal; eauto. }
  destruct s as [a nm args ds [sels|]|nm ds|tc ds sels|items];
    simpl in H, Hs; try discriminate.
  - destruct (mapM _ _) as [sels'| |] eqn:E; try discriminate.
    injection H as <-. now rewrite visitDirectives_add, (IHl _ _ Hs E).
  - injection H as <-. now rewrite visitDirectives_add.
  - injection H as <-. now rewrite visitDirectives_add.
  - destruct (mapM _ _) as [sels'| |] eqn:E; try discriminate.
    injection H as <-. now rewrite visitDirectives_add, (IHl _ _ Hs E).
Qed.

Lemma mapM_In {A B} (f : A -> result B) l l' x :
  mapM f l = Ok l' -> In x l -> exists y, f x = Ok y /\ In y l'.
Proof.
  intros H Hx. apply mapM_Forall2 in H.
  induction H as [|a b l l' Hab _ IH]; [destruct Hx|].
  destruct Hx as [->|Hx].
  - exists b. split; [assumption|now left].
  - destruct (IH Hx) as (y & Hy & Hin). exists y. split; [auto|now right].
Qed.

Lemma mapM_app_inv {A B} (f : A -> result B) l1 l2 l' :
  mapM f (l1 ++ l2) = Ok l' ->
  exists l1' l2', mapM f l1 = Ok l1' /\ mapM f l2 = Ok l2'
                  /\ l' = l1' ++ l2'.
Proof.
  revert l'. induction l1 as [|x l1 IH]; simpl; intros l' H.
  - exists [], l'. auto.
  - destruct (f x) as [y| |]; try discriminate. simpl in H.
    destruct (mapM f (l1 ++ l2)) as [ys| |] eqn:E; try discriminate.
    injection H as <-.
    destruct (IH _ eq_refl) as (l1' & l2' & -> & -> & ->).
    exists (y :: l1'), l2'. auto.
Qed.

Lemma flatten_app l1 l2 : flatten (l1 ++ l2) = flatten l1 ++ flatten l2.
Proof. unfold flatten. apply flat_map_app. Qed.

Lemma flatten_In_node x l : In x l -> isArr x = false -> In x (flatten l).
Proof. intros Hx Hn. apply flatten_In. exists x. auto. Qed.

Lemma FieldNode_eta f :
  Build_FieldNode (alias f) (name f) (arguments f) (directives f)
    (selectionSet f) = f.
Proof. now destruct f. Qed.

Lemma secondPass_add_clean_list m l l' :
  forallb clean l = true ->
  mapM (visitSelection secondPass_add m) l = Ok l' -> l' = l.
Proof.
  revert l'. induction l as [|x l IH]; simpl; intros l' Hl Hv.
  - now injection Hv as <-.
  - apply andb_true_iff in Hl as [Hx Hl].
    destruct (visitSelection secondPass_add m x) as [y| |] eqn:Ey;
      try discriminate. simpl in Hv.
    destruct (mapM _ l) as [ys| |] eqn:Eys; try discriminate.
    injection Hv as <-. f_equal.
    + eapply secondPass_add_clean_unchanged; eauto.
    + now apply IH.
Qed.

Lemma Visited_clean s f :
  Visited s f -> clean s = true -> clean (ofField f) = true.
Proof.
  induction 1 as [f|a nm args ds sels s f Hds Hin _ IH
                  |tc ds sels s f Hin _ IH|items s f Hin _ IH];
    simpl; intros Hc; try discriminate; [assumption| |];
    rewrite forallb_forall in Hc; auto.
Qed.

(** A visited annotated field comes out of the two passes of
    augment-mode in a selection list, with the selections of its
    dependency as next siblings. *)
Lemma Visited_Augmented r node selections :
  annotated node = true ->
  enter_Field (firstPass_add r) node
    = Ok (Replacement (ofField node :: selections)) ->
  forallb clean selections = true ->
  forall s, Visited s node ->
  forall L0 n m L1 L2,
    In s L0 -> forallb clean L0 = true ->
    mapM (visitSelection (firstPass_add r) n) L0 = Ok L1 ->
    mapM (visitSelection secondPass_add m) (flatten L1) = Ok L2 ->
    exists pre post, HasList L2 (pre ++ ofField node :: selections ++ post).
Proof.
  intros Hann Hcb Hsels s HV.
  induction HV as [f|a nm args ds sels s f Hds Hin _ IH
                   |tc ds sels s f Hin _ IH|items s f Hin _ IH];
    intros L0 n m L1 L2 HL0 Hclean H1 H2.
  - apply in_split in HL0 as (l1 & l2 & ->).
    apply mapM_app_inv in H1 as (l1' & rest & _ & Hrest & ->).
    simpl in Hrest.
    destruct (visitSelection _ n (ofField f)) as [y| |] eqn:Ey;
      try discriminate. simpl in Hrest.
    destruct (mapM _ l2) as [l2'| |]; try discriminate.
    injection Hrest as <-.
    destruct n as [|n]; [discriminate|].
    unfold ofField in Ey at 1. cbn [visitSelection] in Ey.
    rewrite FieldNode_eta, Hcb in Ey. injection Ey as <-.
    rewrite flatten_app in H2.
    change (flatten (Arr (ofField f :: selections) :: l2'))
      with ((ofField f :: selections) ++ flatten l2') in H2.
    apply mapM_app_inv in H2 as (p2 & rest2 & _ & H2 & ->).
    apply mapM_app_inv in H2 as (mid2 & q2 & Hmid & _ & ->).
    apply secondPass_add_clean_list in Hmid.
    + subst mid2. exists p2, q2. apply HasList_here.
    + cbn [forallb]. rewrite Hsels, andb_true_r.
      rewrite forallb_forall in Hclean. apply Hclean.
      apply in_or_app. right. now left.
  - destruct (mapM_In _ _ _ _ H1 HL0) as (s1 & Hs1 & Hin1).
    destruct n as [|n]; [discriminate|]. cbn [visitSelection] in Hs1.
    rewrite firstPass_add_plain in Hs1
      by (now rewrite annotated_directives).
    simpl in Hs1. unfold noSelectionSet in Hs1.
    destruct (mapM (visitSelection (firstPass_add r) n) sels)
      as [sels1| |] eqn:E1; try discriminate.
    injection Hs1 as <-.
    apply flatten_In_node in Hin1; [|reflexivity].
    destruct (mapM_In _ _ _ _ H2 Hin1) as (s2 & Hs2 & Hin2).
    destruct m as [|m]; [discriminate|]. simpl in Hs2.
    destruct (mapM _ (flatten sels1)) as [sels2| |] eqn:E2;
      try discriminate.
    injection Hs2 as <-.
    rewrite forallb_forall in Hclean. specialize (Hclean _ HL0).
    destruct (IH Hann Hcb sels n m sels1 sels2 Hin Hclean E1 E2)
      as (pre & post & H).
    exists pre, post. eapply HasList_field; eauto.
  - destruct (mapM_In _ _ _ _ H1 HL0) as (s1 & Hs1 & Hin1).
    destruct n as [|n]; [discriminate|]. simpl in Hs1.
    unfold noSelectionSet in Hs1.
    destruct (mapM (visitSelection (firstPass_add r) n) sels)
      as [sels1| |] eqn:E1; try discriminate.
    injection Hs1 as <-.
    apply flatten_In_node in Hin1; [|reflexivity].
    destruct (mapM_In _ _ _ _ H2 Hin1) as (s2 & Hs2 & Hin2).
    destruct m as [|m]; [discriminate|]. simpl in Hs2.
    destruct (mapM _ (flatten sels1)) as [sels2| |] eqn:E2;
      try discriminate.
    injection Hs2 as <-.
    rewrite forallb_forall in Hclean. specialize (Hclean _ HL0).
    destruct (IH Hann Hcb sels n m sels1 sels2 Hin Hclean E1 E2)
      as (pre & post & H).
    exists pre, post. eapply HasList_inline; eauto.
  - rewrite forallb_forall in Hclean. specialize (Hclean _ HL0).
    discriminate.
Qed.

Lemma visitDefinition_selections v n d d' :
  visitDefinition v n d = Ok d' ->
  visitSelectionSet v n (selectionsOfDefinition d)
    = Ok (selectionsOfDefinition d').
Proof.
  destruct d; simpl; intros H;
    destruct (visitSelectionSet _ _ _) as [ss'| |]; try discriminate;
    now injection H as <-.
Qed.

Lemma Definitions_Augmented r node selections d d1 d2 n m s :
  annotated node = true ->
  enter_Field (firstPass_add r) node
    = Ok (Replacement (ofField node :: selections)) ->
  forallb clean selections = true ->
  In s (selectionsOfDefinition d) -> Visited s node ->
  forallb clean (selectionsOfDefinition d) = true ->
  visitDefinition (firstPass_add r) n d = Ok d1 ->
  visitDefinition secondPass_add m d1 = Ok d2 ->
  exists pre post,
    HasList (selectionsOfDefinition d2)
      (pre ++ ofField node :: selections ++ post).
Proof.
  intros Hann Hcb Hsels Hs HV Hc H1 H2.
  apply visitDefinition_selections in H1, H2.
  eapply Visited_Augmented; eauto.
Qed.

Lemma secondPass_add_query_unchanged q :
  cleanQuery q = true -> visit q secondPass_add = Ok q.
Proof.
  intros Hq. destruct (secondPass_add_returns q) as [out H].
  rewrite H. f_equal.
  assert (Hvd : forall vds,
             map (visitVariableDefinition secondPass_add) vds = vds).
  { induction vds as [|[] vds IH]; simpl; [easy|].
    unfold visitVariableDefinition at 1. simpl.
    now rewrite visitDirectives_add, IH. }
  assert (Hd : forall n d d',
             forallb clean (selectionsOfDefinition d) = true ->
             visitDefinition secondPass_add n d = Ok d' -> d' = d).
  { intros n d d' Hc Hv.
    destruct d; simpl in *;
      destruct (visitSelectionSet _ _ _) as [ss'| |] eqn:E;
      try discriminate; injection Hv as <-;
      unfold visitSelectionSet in E; simpl in E;
      rewrite flatten_no_Arr in E
        by (intros x Hx; rewrite forallb_forall in Hc;
            now apply clean_not_Arr, Hc);
      apply secondPass_add_clean_list in E; try assumption;
      now rewrite Hvd, visitDirectives_add, E. }
  unfold visit in H. destruct q as [d|doc]; simpl in *.
  - destruct (visitDefinition _ _ d) as [d'| |] eqn:E; try discriminate.
    injection H as <-. f_equal. eauto.
  - destruct (mapM _ _) as [ds| |] eqn:E; try discriminate.
    injection H as <-. destruct doc as [defs]. simpl in *. do 2 f_equal.
    revert E. generalize (list_max (map heightDefinition defs)) as n.
    intros n E. clear -E Hq Hd. revert ds E.
    induction defs as [|d defs IH]; simpl in *; intros ds E.
    + now injection E as <-.
    + apply andb_true_iff in Hq as [Hc Hq].
      destruct (visitDefinition _ _ d) as [d'| |] eqn:Ed; try discriminate.
      simpl in E.
      destruct (mapM _ defs) as [ds'| |] eqn:Eds; try discriminate.
      injection E as <-. f_equal; eauto.
Qed.

(** C5, for the fields the first pass visits: in augment-mode an
    annotated field that does not lie inside another annotated field is
    replaced by itself, annotation included, followed by the selections
    of its resolved dependency, and stands in the returned tree with
    these as its next siblings; the second pass assigns
    [flatten(selections)] and nothing else, returns no [null] for any
    directive, and so returns a tree without arrays as it was. *)
Theorem visited_field_augmented
    (fuel : nat) (entities : Entities) (q out : Query) (node : FieldNode) :
  cleanEntities entities -> cleanQuery q = true ->
  VisitedIn q node -> annotated node = true ->
  addFragmentsFromDirectives (S fuel) entities (Some q) = Ok (Some out) ->
  (exists fragment selections,
      addFragmentToNode fuel entities node = Ok fragment
      /\ selectionsOf fragment = Ok selections
      /\ enter_Field (firstPass_add (addFragmentToNode fuel entities)) node
         = Ok (Replacement (ofField node :: selections))
      /\ Augmented out node selections)
  /\ enter_SelectionSet secondPass_add = flatten
  /\ (forall ds, visitDirectives secondPass_add ds = ds)
  /\ (forall t, cleanQuery t = true -> visit t secondPass_add = Ok t).
Proof.
  intros Hent Hq HV Hann H.
  split; [|repeat split;
           [apply visitDirectives_add|apply secondPass_add_query_unchanged]].
  simpl in H.
  destruct (visit q _) as [firstPass| |] eqn:E1; try discriminate.
  simpl in H.
  destruct (visit firstPass _) as [out'| |] eqn:E2; try discriminate.
  injection H as <-.
  fold (addFragmentToNode fuel entities) in E1.
  pose proof (VisitedIn_callback_Ok _ (firstPass_add_plain _)
                (fun _ => eq_refl) _ _ _ HV E1) as Hok.
  assert (Hnode : clean (ofField node) = true).
  { destruct q as [d|doc]; simpl in HV, Hq.
    - destruct HV as (s & Hs & HVs). rewrite forallb_forall in Hq.
      eapply Visited_clean; eauto.
    - destruct HV as (d & s & Hd & Hs & HVs).
      rewrite forallb_forall in Hq. specialize (Hq d Hd).
      rewrite forallb_forall in Hq. eapply Visited_clean; eauto. }
  assert (exists fragment selections,
             addFragmentToNode fuel entities node = Ok fragment
             /\ selectionsOf fragment = Ok selections
             /\ enter_Field
                  (firstPass_add (addFragmentToNode fuel entities)) node
                = Ok (Replacement (ofField node :: selections)))
    as (fragment & selections & Hfr & Hsel & Hcb).
  { simpl in Hok |- *. rewrite Hann in Hok |- *. simpl in Hok |- *.
    destruct (addFragmentToNode fuel entities node) as [fragment| |]
      eqn:Efr; try discriminate. simpl in Hok |- *.
    destruct (selectionsOf fragment) as [selections| |] eqn:Esel;
      try discriminate.
    exists fragment, selections. repeat split. exact Esel. }
  exists fragment, selections. repeat split; try assumption.
  assert (Hsels : forallb clean selections = true).
  { pose proof (firstPass_add_replacement entities fuel Hent
                  (add_clean entities Hent fuel) node _ Hnode Hcb) as Hc.
    cbn [forallb] in Hc. now apply andb_true_iff in Hc as [_ Hc]. }
  unfold visit in E1, E2. unfold Augmented.
  destruct q as [d|doc]; simpl in E1, HV, Hq.
  - destruct (visitDefinition _ _ d) as [d1| |] eqn:Ed1; try discriminate.
    injection E1 as <-. simpl in E2.
    destruct (visitDefinition _ _ d1) as [d2| |] eqn:Ed2; try discriminate.
    injection E2 as <-.
    destruct HV as (s & Hs & HVs).
    destruct (Definitions_Augmented _ _ _ _ _ _ _ _ _ Hann Hcb Hsels
                Hs HVs Hq Ed1 Ed2) as (pre & post & HL).
    exists (pre ++ ofField node :: selections ++ post), pre, post.
    split; [exact HL|reflexivity].
  - destruct (mapM _ _) as [ds1| |] eqn:Ed1; try discriminate.
    injection E1 as <-. simpl in E2.
    destruct (mapM _ ds1) as [ds2| |] eqn:Ed2; try discriminate.
    injection E2 as <-.
    destruct HV as (d & s & Hd & Hs & HVs).
    destruct (mapM_In _ _ _ _ Ed1 Hd) as (d1 & Hd1 & Hin1).
    destruct (mapM_In _ _ _ _ Ed2 Hin1) as (d2 & Hd2 & Hin2).
    rewrite forallb_forall in Hq.
    destruct (Definitions_Augmented _ _ _ _ _ _ _ _ _ Hann Hcb Hsels
                Hs HVs (Hq d Hd) Hd1 Hd2) as (pre & post & HL).
    exists (pre ++ ofField node :: selections ++ post), pre, post.
    split; [|reflexivity].
    exists d2. split; assumption.
Qed.

Lemma visited_field_augmented_witness :
  exists fragment selections,
    addFragmentToNode 1 Sample.entities Sample.fullName = Ok fragment
    /\ selectionsOf fragment = Ok selections
    /\ Augmented
         (Sample.operation
            [Sample.leaf "id"; ofField Sample.fullName;
             Sample.leaf "firstName"; Sample.leaf "lastName"])
         Sample.fullName selections.
Proof.
  destruct (visited_field_augmented 1 Sample.entities Sample.profile
              (Sample.operation
                 [Sample.leaf "id"; ofField Sample.fullName;
                  Sample.leaf "firstName"; Sample.leaf "lastName"])
              Sample.fullName Sample_entities_clean eq_refl)
    as ((fragment & selections & H1 & H2 & _ & H3) & _).
  - exists (ofField Sample.fullName).
    split; [right; left; reflexivity|apply Visited_here].
  - reflexivity.
  - reflexivity.
  - exists fragment, selections. auto.
Defined.

Lemma Augmented_FollowedBy out node selections :
  Augmented out node selections -> FollowedBy out node selections.
Proof.
  intros (L & pre & post & HL & ->).
  exists (pre ++ ofField node :: selections ++ post), pre,
    (selections ++ post).
  repeat split; [assumption|]. intros s Hs. apply in_or_app. now left.
Qed.

(** C5, as stated over every annotated field of the tree, fails: an
    annotated field inside the sub-selection of another annotated field
    is kept with its parent, but the first pass never visits it and its
    dependency is not added. *)
Lemma nested_annotated_field_not_augmented :
  ~ EveryAnnotatedFieldAugmented.
Proof.
  intros H.
  specialize (H 2 Sample.entities Sample.nestedComputed
                (Sample.operation
                   [Field None "fullName" [] [Sample.computed "User"]
                      (Some [ofField Sample.initials]);
                    Sample.leaf "firstName"; Sample.leaf "lastName"])
                Sample.initials
                (Some (ADefinition
                         (FragmentDefinition "deps" [] "User" []
                            [ofField Sample.fullName;
                             Sample.leaf "firstName";
                             Sample.leaf "lastName"])))
                [ofField Sample.fullName; Sample.leaf "firstName";
                 Sample.leaf "lastName"]).
  destruct H as (L & pre & post & HL & HLeq & Hpost);
    try reflexivity.
  1:{ eexists. split; [left; reflexivity|].
      eapply Occurs_field; [left; reflexivity|apply Occurs_here]. }
  specialize (Hpost (Sample.leaf "firstName") (or_intror (or_introl eq_refl))).
  simpl in HL.
  assert (Hin : In (ofField Sample.initials) L)
    by (rewrite HLeq; apply in_or_app; right; now left).
  assert (HL' : L = [ofField Sample.initials]).
  { clear HLeq Hpost.
    inversion HL as [T HT|T a nm args ds sels L' Hin' Hsub
                     |T tc ds sels L' Hin' Hsub]; subst.
    - destruct Hin as [Hin|[Hin|[Hin|[]]]]; discriminate Hin.
    - destruct Hin' as [Hin'|[Hin'|[Hin'|[]]]]; try discriminate Hin'.
      injection Hin' as <- <- <- <- <-.
      inversion Hsub as [T HT|T a nm args ds sels L' Hin' Hsub'
                         |T tc ds sels L' Hin' Hsub']; subst.
      + reflexivity.
      + destruct Hin' as [Hin'|[]]. discriminate Hin'.
      + destruct Hin' as [Hin'|[]]. discriminate Hin'.
    - destruct Hin' as [Hin'|[Hin'|[Hin'|[]]]]; discriminate Hin'. }
  rewrite HL' in HLeq.
  destruct pre as [|x [|y pre]]; try discriminate HLeq.
  injection HLeq as <-. destruct Hpost.
Qed.

(** * Further properties *)

(** ** More ways for resolution to fail *)

(** X1: when the first [computed] directive of a field yields no type
    name, both rewriters abort with the error of [getDirectiveType],
    whatever the registry holds and whatever other directives follow. *)
Theorem untyped_annotation_aborts
    (entities : Entities) (node : FieldNode) (d : DirectiveNode) :
  List.find isComputed (directives node) = Some d ->
  getDirectiveType (Some d) = Throw NoTypeSpecified ->
  (forall rewrite,
      resolveFragment rewrite entities node = Throw NoTypeSpecified)
  /\ AbortsWith entities node NoTypeSpecified.
Proof.
  intros Hd Ht.
  assert (Hann : annotated node = true).
  { destruct node as [a nm args ds ss]. rewrite annotated_directives.
    simpl in Hd. apply find_some in Hd as [Hin Hc].
    apply existsb_exists. eauto. }
  assert (Hres : forall rewrite,
             resolveFragment rewrite entities node = Throw NoTypeSpecified).
  { intros rewrite. unfold resolveFragment. now rewrite Hd, Ht. }
  split; [exact Hres|].
  apply callbacks_abort; intros fuel; simpl; rewrite Hann; simpl.
  - unfold replaceDirectiveByFragment. now rewrite Hres.
  - unfold addFragmentToNode. now rewrite Hres.
Qed.

Lemma untyped_annotation_aborts_witness :
  replaceDirectivesByFragments 1 Sample.entities
    (Some (Sample.operation [Sample.leaf "id"; ofField Sample.untyped]))
  = Throw NoTypeSpecified.
Proof.
  destruct (untyped_annotation_aborts Sample.entities Sample.untyped
              {| directive_name := "computed"; directive_arguments := [] |}
              eq_refl eq_refl) as (_ & Hfirst & _).
  apply Hfirst.
  apply (First_here [Sample.leaf "id"] Sample.untyped []); reflexivity.
Defined.

(** X2: a dependency document without definitions is treated like a
    missing dependency: [definitions[0]] is [undefined], the nested
    rewrite returns [null], and the read of [selectionSet] aborts both
    rewriters. *)
Theorem empty_dependency_document
    (entities : Entities) (node : FieldNode) (directiveType : string)
    (entityType : Entity) (entityField : EntityField) (doc : DocumentNode) :
  getDirectiveType (List.find isComputed (directives node))
    = Ok directiveType ->
  entities !! directiveType = Some entityType ->
  fields entityType !! name node = Some entityField ->
  dependencies entityField = Some doc ->
  definitions doc = [] ->
  (forall fuel,
      replaceDirectiveByFragment fuel entities node = Ok None
      /\ addFragmentToNode fuel entities node = Ok None)
  /\ AbortsWith entities node (TypeError "selectionSet").
Proof.
  intros Ht Hent Hfld Hdep Hdoc.
  pose proof (getDirectiveType_annotated _ _ Ht) as Hann.
  assert (forall fuel,
             replaceDirectiveByFragment fuel entities node = Ok None
             /\ addFragmentToNode fuel entities node = Ok None) as Hres.
  { intros fuel.
    unfold replaceDirectiveByFragment, addFragmentToNode, resolveFragment.
    rewrite Ht. simpl. rewrite Hent, Hfld, Hdep, Hdoc.
    split; destruct fuel; reflexivity. }
  split; [exact Hres|].
  apply callbacks_abort; intros fuel; simpl; rewrite Hann; simpl;
    destruct (Hres fuel) as [Hr Ha].
  - now rewrite Hr.
  - now rewrite Ha.
Qed.

Lemma empty_dependency_document_witness :
  addFragmentsFromDirectives 1 Sample.hollow
    (Some (Sample.operation [ofField Sample.empty]))
  = Throw (TypeError "selectionSet").
Proof.
  destruct (Sample.hollow !! "User") as [entityType|] eqn:E;
    [|discriminate E].
  destruct (empty_dependency_document Sample.hollow Sample.empty "User"
              entityType {| dependencies := Some {| definitions := [] |} |}
              {| definitions := [] |} eq_refl E)
    as (_ & Hfirst & _).
  - injection E as <-. reflexivity.
  - reflexivity.
  - reflexivity.
  - apply Hfirst. apply (First_here [] Sample.empty []); reflexivity.
Defined.

(** ** A registry that depends on itself *)

Lemma mapM_app_OutOfFuel {A B} (f : A -> result B) pre pre' x post :
  mapM f pre = Ok pre' -> f x = OutOfFuel ->
  mapM f (pre ++ x :: post) = OutOfFuel.
Proof.
  revert pre'. induction pre as [|y pre IH]; intros pre' Hpre Hx; simpl.
  - now rewrite Hx.
  - simpl in Hpre. destruct (f y); try discriminate. simpl in *.
    destruct (mapM f pre) eqn:E; try discriminate.
    now rewrite (IH _ eq_refl Hx).
Qed.

Section FirstPassDiverges.
Variable v : Visitor.
Hypothesis v_plain :
  forall g, annotated g = false -> enter_Field v g = Ok Undefined.
Hypothesis v_selectionSet : forall sels, enter_SelectionSet v sels = sels.
Hypothesis v_directive : forall d, enter_Directive v d = false.

Lemma First_OutOfFuel sels f :
  First sels f -> enter_Field v f = OutOfFuel ->
  forall n, heights sels <= n ->
            mapM (visitSelection v n) sels = OutOfFuel.
Proof.
  intros HF He.
  induction HF as [pre f post Hpre Hf
                  |pre a nm args ds sels post f Hpre Hds _ IH
                  |pre tc ds sels post f Hpre _ IH
                  |pre items post f Hpre _ IH];
    intros n Hn; rewrite heights_app, heights_cons in Hn;
    (eapply mapM_app_OutOfFuel;
     [apply (plain_list_unchanged v v_plain v_selectionSet v_directive);
      [assumption|lia]|]);
    match type of Hn with
    | context [Nat.max (height ?x) _] => pose proof (height_pos x)
    end;
    (destruct n as [|n]; [lia|]); simpl.
  - destruct f; simpl in *. now rewrite He.
  - rewrite v_plain by (now rewrite annotated_directives). simpl.
    rewrite v_selectionSet, IH; [reflexivity|assumption|].
    simpl in Hn. unfold heights. lia.
  - rewrite v_selectionSet, IH; [reflexivity|assumption|].
    simpl in Hn. unfold heights. lia.
  - rewrite IH; [reflexivity|assumption|].
    simpl in Hn. unfold heights. lia.
Qed.

Lemma FirstIn_OutOfFuel q f :
  FirstIn q f -> enter_Field v f = OutOfFuel -> visit q v = OutOfFuel.
Proof.
  assert (Hd : forall n d, First (selectionsOfDefinition d) f ->
                           enter_Field v f = OutOfFuel ->
                           heightDefinition d <= n ->
                           visitDefinition v n d = OutOfFuel).
  { intros n d HF He Hn.
    destruct d; simpl in *; unfold visitSelectionSet;
      rewrite v_selectionSet, (First_OutOfFuel _ _ HF He) by assumption;
      reflexivity. }
  unfold visit. destruct q as [d|doc]; simpl; intros HF He.
  - now rewrite Hd.
  - destruct HF as (pre & d & post & Hdoc & Hpre & HF).
    rewrite Hdoc.
    erewrite mapM_app_OutOfFuel; [reflexivity| |].
    + apply mapM_id. apply List.Forall_forall. intros x Hx.
      apply (plain_definition_unchanged v v_plain v_selectionSet
               v_directive).
      * rewrite forallb_forall in Hpre. auto.
      * apply heightDefinition_In. apply in_or_app. now left.
    + apply Hd; auto. apply heightDefinition_In.
      apply in_or_app. right. now left.
Qed.

Lemma plain_query_unchanged q : plainQuery q = true -> visit q v = Ok q.
Proof.
  unfold visit. destruct q as [d|doc]; simpl; intros Hp.
  - now rewrite (plain_definition_unchanged v v_plain v_selectionSet
                   v_directive) by (auto; lia).
  - rewrite mapM_id; [now destruct doc|].
    apply List.Forall_forall. intros d Hd.
    apply (plain_definition_unchanged v v_plain v_selectionSet
             v_directive).
    + rewrite forallb_forall in Hp. auto.
    + now apply heightDefinition_In.
Qed.
End FirstPassDiverges.

(** X3: there is no cycle detection: when the dependency of a field
    leads back to the field itself, a rewrite that reaches the field
    returns neither a tree nor an error, with any amount of fuel. *)
Theorem self_dependency_never_returns
    (entities : Entities) (node : FieldNode) :
  SelfDependent entities node ->
  forall fuel q,
    FirstIn q node ->
    replaceDirectivesByFragments fuel entities (Some q) = OutOfFuel
    /\ addFragmentsFromDirectives fuel entities (Some q) = OutOfFuel.
Proof.
  intros (t & entityType & entityField & doc & d & rest
          & Ht & Hent & Hfld & Hdep & Hdoc & Hself).
  pose proof (getDirectiveType_annotated _ _ Ht) as Hann.
  induction fuel as [|fuel IH]; intros q Hq; [split; reflexivity|].
  destruct (IH (ADefinition d) Hself) as [IHr IHa].
  split; simpl.
  - rewrite (FirstIn_OutOfFuel _ (firstPass_replace_plain _)
               (fun _ => eq_refl) (fun _ => eq_refl) q node Hq);
      [reflexivity|].
    simpl. rewrite Hann. simpl. unfold resolveFragment.
    rewrite Ht. simpl. rewrite Hent, Hfld, Hdep, Hdoc. simpl.
    now rewrite IHr.
  - rewrite (FirstIn_OutOfFuel _ (firstPass_add_plain _)
               (fun _ => eq_refl) (fun _ => eq_refl) q node Hq);
      [reflexivity|].
    simpl. rewrite Hann. simpl. unfold resolveFragment.
    rewrite Ht. simpl. rewrite Hent, Hfld, Hdep, Hdoc. simpl.
    now rewrite IHa.
Qed.

Lemma self_dependency_never_returns_witness :
  replaceDirectivesByFragments 7 Sample.loop
    (Some (Sample.operation [ofField Sample.self])) = OutOfFuel.
Proof.
  apply (self_dependency_never_returns Sample.loop Sample.self).
  - destruct (Sample.loop !! "User") as [entityType|] eqn:E;
      [|discriminate E].
    exists "User", entityType,
      {| dependencies :=
           Some (Sample.fragmentOn "User"
                   [Sample.leaf "id"; ofField Sample.self]) |},
      (Sample.fragmentOn "User" [Sample.leaf "id"; ofField Sample.self]),
      (FragmentDefinition "deps" [] "User" []
         [Sample.leaf "id"; ofField Sample.self]), [].
    split; [reflexivity|]. split; [exact E|].
    split; [injection E as <-; reflexivity|].
    split; [reflexivity|]. split; [reflexivity|].
    apply (First_here [Sample.leaf "id"] Sample.self []); reflexivity.
  - apply (First_here [] Sample.self []); reflexivity.
Defined.

(** ** Documents without annotated fields *)



Lemma computedAmong_zero ds :
  computedAmong ds = 0 -> existsb isComputed ds = false.
Proof.
  unfold computedAmong. induction ds as [|d ds IH]; simpl; [reflexivity|].
  destruct (isComputed d); simpl; [discriminate|exact IH].
Qed.

Lemma list_sum_zero_inv {A} (h : A -> nat) l :
  list_sum (map h l) = 0 -> List.Forall (fun x => h x = 0) l.
Proof.
  induction l as [|x l IH]; simpl; intros H; constructor; [lia|].
  apply IH. lia.
Qed.

Lemma Forall_forallb_impl {A} (P : A -> Prop) (r : A -> bool) l :
  List.Forall (fun x => P x -> r x = true) l ->
  List.Forall P l -> forallb r l = true.
Proof.
  induction 1 as [|x l Hx _ IH]; intros HP; [reflexivity|].
  inversion HP; subst. simpl. rewrite Hx, IH; auto.
Qed.

Lemma computedIn_plain s : computedIn s = 0 -> plain s = true.
Proof.
  induction s as [a nm args ds|a nm args ds sels IH|nm ds|tc ds sels IH
                  |items IH] using Selection_nested_ind;
    simpl; intros H; try reflexivity.
  - rewrite computedAmong_zero by lia. reflexivity.
  - rewrite computedAmong_zero by lia. simpl.
    eapply Forall_forallb_impl; [exact IH|].
    apply list_sum_zero_inv. lia.
  - eapply Forall_forallb_impl; [exact IH|].
    apply list_sum_zero_inv. lia.
  - eapply Forall_forallb_impl; [exact IH|].
    now apply list_sum_zero_inv.
Qed.

Lemma computedInQuery_plain q : computedInQuery q = 0 -> plainQuery q = true.
Proof.
  assert (Hd : forall d, computedInDefinition d = 0 ->
                         forallb plain (selectionsOfDefinition d) = true).
  { intros d Hd. destruct d; simpl in *;
      (eapply Forall_forallb_impl;
       [apply List.Forall_forall; intros x _; apply computedIn_plain|]);
      apply list_sum_zero_inv; lia. }
  destruct q as [d|doc]; simpl; intros H; [auto|].
  eapply Forall_forallb_impl;
    [apply List.Forall_forall; intros d _; apply Hd|].
  now apply list_sum_zero_inv.
Qed.

(** X5: replace-mode is idempotent as a whole: given a tree it has
    returned for a parsed document and registry, it returns that tree
    unchanged, with any registry. *)
Theorem replace_twice
    (fuel : nat) (entities : Entities) (q out : Query) :
  cleanEntities entities -> cleanQuery q = true ->
  replaceDirectivesByFragments fuel entities (Some q) = Ok (Some out) ->
  forall fuel' (entities' : Entities),
    replaceDirectivesByFragments (S fuel') entities' (Some out)
    = Ok (Some out).
Proof.
  intros Hent Hq H fuel' entities'.
  destruct fuel as [|fuel]; [discriminate|]. simpl in H.
  destruct (visit q _) as [firstPass| |] eqn:E1; try discriminate.
  simpl in H.
  destruct (visit firstPass _) as [out'| |] eqn:E2; try discriminate.
  injection H as <-.
  assert (Hp : plainQuery out' = true)
    by (eapply computedInQuery_plain, secondPass_query_no_computed, E2).
  simpl.
  rewrite (plain_query_unchanged _ (firstPass_replace_plain _)
             (fun _ => eq_refl) (fun _ => eq_refl) out' Hp).
  simpl.
  rewrite (secondPass_query_fixed firstPass out'); [reflexivity| |exact E2].
  eapply replace_firstPass_shallow; eauto.
Qed.

Lemma replace_twice_witness :
  replaceDirectivesByFragments 1 Sample.loop
    (Some (Sample.operation
             [Sample.leaf "id"; Sample.leaf "firstName";
              Sample.leaf "lastName"]))
  = Ok (Some (Sample.operation
                [Sample.leaf "id"; Sample.leaf "firstName";
                 Sample.leaf "lastName"])).
Proof.
  apply (replace_twice 2 Sample.entities Sample.profile);
    [exact Sample_entities_clean|reflexivity|reflexivity].
Defined.

(** X6: for a parsed document and registry, a tree returned by either
    rewriter is again as parsed: one level of flattening removes every
    array the first pass has put among the selections, at any depth. *)
Theorem rewriters_leave_no_arrays
    (fuel : nat) (entities : Entities) (q out : Query) :
  cleanEntities entities -> cleanQuery q = true ->
  replaceDirectivesByFragments fuel entities (Some q) = Ok (Some out)
  \/ addFragmentsFromDirectives fuel entities (Some q) = Ok (Some out) ->
  cleanQuery out = true.
Proof.
  intros Hent Hq [H|H].
  - eapply replace_clean; eauto.
  - eapply add_clean; eauto.
Qed.

Lemma rewriters_leave_no_arrays_witness :
  cleanQuery
    (Sample.operation
       [Sample.leaf "id"; ofField Sample.fullName;
        Sample.leaf "firstName"; Sample.leaf "lastName"]) = true.
Proof.
  apply (rewriters_leave_no_arrays 2 Sample.entities Sample.profile);
    [exact Sample_entities_clean|reflexivity|right; reflexivity].
Defined.

(** ** The merge of two fields *)

(** X7: merging fields with [mergeWith] and the customizer of the source
    is associative, so a group may be merged in any bracketing; the
    empty object is a left unit. *)
Theorem mergeWith_assoc (a b c : FieldNode) :
  mergeWith (Some (mergeWith (Some a) b)) c
  = mergeWith (Some a) (mergeWith (Some b) c)
  /\ mergeWith (Some (mergeWith None a)) b = mergeWith (Some a) b.
Proof.
  split; [|reflexivity].
  unfold mergeWith. simpl. f_equal.
  - now destruct (alias c).
  - now rewrite app_assoc.
  - now rewrite app_assoc.
  - destruct (selectionSet a), (selectionSet b), (selectionSet c);
      try reflexivity.
    now rewrite app_assoc.
Qed.

(** ** The selection lists replace-mode returns *)

Lemma secondPass_lists_Tidy T L :
  HasList T L ->
  forall n sels,
    forallb shallow sels = true ->
    mapM (visitSelection secondPass_replace n) (normalizeSelections sels)
      = Ok T ->
    Tidy L.
Proof.
  induction 1 as [T|T a nm args ds sels' L Hin _ IH
                  |T tc ds sels' L Hin _ IH]; intros n sels Hsh Hv.
  - apply mapM_Forall2 in Hv. eapply secondPass_Tidy; [exact Hv|].
    apply normalizeSelections_Tidy. intros y Hy.
    now apply (flatten_nodes sels).
  - apply mapM_Forall2 in Hv.
    destruct (Forall2_In_r _ _ _ _ Hv Hin) as (x & Hx & Hxy).
    destruct (normalizeSelections_nodes _ Hsh _ Hx) as [Ha Hs].
    destruct n as [|n]; [discriminate|].
    destruct x as [a0 nm0 args0 ds0 [sels0|]|nm0 ds0|tc0 ds0 sels0|items];
      simpl in Hxy, Hs; try discriminate.
    + destruct (mapM _ _) as [l| |] eqn:E in Hxy; try discriminate.
      injection Hxy as _ _ _ _ Hl. subst l. eapply IH; eauto.
    + destruct (mapM _ _) as [l| |] eqn:E in Hxy; discriminate.
  - apply mapM_Forall2 in Hv.
    destruct (Forall2_In_r _ _ _ _ Hv Hin) as (x & Hx & Hxy).
    destruct (normalizeSelections_nodes _ Hsh _ Hx) as [Ha Hs].
    destruct n as [|n]; [discriminate|].
    destruct x as [a0 nm0 args0 ds0 [sels0|]|nm0 ds0|tc0 ds0 sels0|items];
      simpl in Hxy, Hs; try discriminate.
    + destruct (mapM _ _) as [l| |] eqn:E in Hxy; discriminate.
    + destruct (mapM _ _) as [l| |] eqn:E in Hxy; try discriminate.
      injection Hxy as _ _ Hl. subst l. eapply IH; eauto.
Qed.

Lemma secondPass_query_lists_Tidy q out L :
  shallowQuery q = true -> visit q secondPass_replace = Ok out ->
  ListIn out L -> Tidy L.
Proof.
  assert (Hd : forall n d d',
             forallb shallow (selectionsOfDefinition d) = true ->
             visitDefinition secondPass_replace n d = Ok d' ->
             HasList (selectionsOfDefinition d') L -> Tidy L).
  { intros n d d' Hsh Hv HL. apply visitDefinition_selections in Hv.
    eapply secondPass_lists_Tidy; eauto. }
  unfold visit. destruct q as [d|doc]; simpl; intros Hsh H HL.
  - destruct (visitDefinition _ _ d) as [d'| |] eqn:E; try discriminate.
    injection H as <-. simpl in HL. eauto.
  - destruct (mapM _ _) as [ds| |] eqn:E; try discriminate.
    injection H as <-. simpl in HL. destruct HL as (d' & Hd' & HL).
    apply mapM_Forall2 in E.
    destruct (Forall2_In_r _ _ _ _ E Hd') as (d & Hdin & Hdd').
    rewrite forallb_forall in Hsh. eauto.
Qed.

(** X8: in a tree replace-mode returns for a parsed document and
    registry, every selection list, at any depth, has its members that
    are not fields first and then fields with pairwise different
    response keys. *)
Theorem replace_output_lists
    (fuel : nat) (entities : Entities) (q out : Query)
    (L : list Selection) :
  cleanEntities entities -> cleanQuery q = true ->
  replaceDirectivesByFragments fuel entities (Some q) = Ok (Some out) ->
  ListIn out L ->
  exists nonFields fields,
    L = nonFields ++ map ofField fields
    /\ (forall s, In s nonFields -> isField s = false /\ isArr s = false)
    /\ List.NoDup (map responseKey fields).
Proof.
  intros Hent Hq H HL.
  destruct fuel as [|fuel]; [discriminate|]. simpl in H.
  destruct (visit q _) as [firstPass| |] eqn:E1; try discriminate.
  simpl in H.
  destruct (visit firstPass _) as [out'| |] eqn:E2; try discriminate.
  injection H as <-.
  eapply (secondPass_query_lists_Tidy firstPass out'); eauto.
  eapply replace_firstPass_shallow; eauto.
Qed.

Lemma replace_output_lists_witness :
  exists nonFields fields,
    [Sample.leaf "firstName"; Sample.leaf "lastName"]
    = nonFields ++ map ofField fields
    /\ (forall s, In s nonFields -> isField s = false /\ isArr s = false)
    /\ List.NoDup (map responseKey fields).
Proof.
  apply (replace_output_lists 3 Sample.entities
           (Sample.operation [ofField Sample.initials; ofField Sample.fullName])
           (Sample.operation [Sample.leaf "firstName"; Sample.leaf "lastName"]));
    [exact Sample_entities_clean|reflexivity|reflexivity|apply HasList_here].
Defined.

(** ** What replace-mode puts in place of a field *)

Lemma mapM_of_Forall2 {A B} (f : A -> result B) l l' :
  List.Forall2 (fun x y => f x = Ok y) l l' -> mapM f l = Ok l'.
Proof.
  induction 1 as [|x y l l' Hxy _ IH]; simpl; [reflexivity|].
  now rewrite Hxy; simpl; rewrite IH.
Qed.

Lemma Forall2_impl_In {A B} (R R' : A -> B -> Prop) l l' :
  List.Forall2 R l l' -> (forall x y, R x y -> R' x y) ->
  List.Forall2 R' l l'.
Proof. induction 1; intros H'; constructor; auto. Qed.

Lemma visitSelection_S v n s :
  visitSelection v (S n) s =
  match s with
  | Field a nm args ds ss =>
      let* r := enter_Field v (Build_FieldNode a nm args ds ss) in
      match r with
      | Replacement nodes => Ok (Arr nodes)
      | Undefined =>
          match ss with
          | None => Ok (Field a nm args (visitDirectives v ds) None)
          | Some sels =>
              let* sels' :=
                mapM (visitSelection v n) (enter_SelectionSet v sels) in
              Ok (Field a nm args (visitDirectives v ds) (Some sels'))
          end
      end
  | FragmentSpread nm ds => Ok (FragmentSpread nm (visitDirectives v ds))
  | InlineFragment tc ds sels =>
      let* sels' :=
        mapM (visitSelection v n) (enter_SelectionSet v sels) in
      Ok (InlineFragment tc (visitDirectives v ds) sels')
  | Arr items =>
      let* items' := mapM (visitSelection v n) items in Ok (Arr items')
  end.
Proof. reflexivity. Qed.

(** More fuel does not change what a traversal returns. *)
Lemma visitSelection_more_fuel v n :
  forall s y, visitSelection v n s = Ok y ->
              visitSelection v (S n) s = Ok y.
Proof.
  induction n as [|n IH]; intros s y H; [discriminate|].
  assert (IHl : forall l l',
             mapM (visitSelection v n) l = Ok l' ->
             mapM (visitSelection v (S n)) l = Ok l').
  { intros l l' Hl. apply mapM_of_Forall2.
    eapply Forall2_impl_In; [apply mapM_Forall2, Hl|]. exact IH. }
  rewrite visitSelection_S in H. rewrite (visitSelection_S v (S n)).
  destruct s as [a nm args ds [sels|]|nm ds|tc ds sels|items].
  - destruct (enter_Field v _) as [[|nodes]| |]; cbn [bind] in H |- *;
      try discriminate; [|exact H].
    destruct (mapM (visitSelection v n) _) as [l| |] eqn:E;
      try discriminate.
    now rewrite (IHl _ _ E).
  - exact H.
  - exact H.
  - destruct (mapM (visitSelection v n) _) as [l| |] eqn:E;
      try discriminate.
    now rewrite (IHl _ _ E).
  - destruct (mapM (visitSelection v n) _) as [l| |] eqn:E;
      try discriminate.
    now rewrite (IHl _ _ E).
Qed.

Lemma visitSelection_fuel_le v n m s y :
  n <= m -> visitSelection v n s = Ok y -> visitSelection v m s = Ok y.
Proof.
  induction 1 as [|m _ IH]; intros H; [exact H|].
  now apply visitSelection_more_fuel, IH.
Qed.

Lemma Settled_image sels s m y :
  Settled sels -> In s sels ->
  visitSelection secondPass_replace m s = Ok y -> y = s.
Proof.
  intros Hset Hs Hy.
  pose proof (Hset s Hs (Nat.max m (height s)) (Nat.le_max_r _ _)) as Hfix.
  apply (visitSelection_fuel_le _ _ (Nat.max m (height s)))
    in Hy; [|apply Nat.le_max_l].
  congruence.
Qed.

Lemma coalesce_selectionSet g f c :
  In f g -> selectionSet f = Some c ->
  selectionSet (coalesce g) = Some (concat (omap selectionSet g))
  /\ incl c (concat (omap selectionSet g)).
Proof.
  intros Hf Hc.
  assert (Hin : In c (omap selectionSet g))
    by (apply In_omap; eauto).
  split.
  - unfold coalesce. cbn [selectionSet].
    destruct (omap selectionSet g); [destruct Hin|reflexivity].
  - intros x Hx. apply in_concat. eauto.
Qed.

Lemma merged_In M f :
  In (ofField f) (flatten M) ->
  In (ofField (coalesce (group (responseKey f) (fieldsOf (flatten M)))))
    (normalizeSelections M)
  /\ In f (group (responseKey f) (fieldsOf (flatten M))).
Proof.
  intros Hf. apply fieldsOf_In in Hf. split.
  - rewrite normalizeSelections_eq. apply in_or_app. right.
    apply (in_map (fun k => ofField
                     (coalesce (group k (fieldsOf (flatten M)))))).
    apply firstSeen_In. now apply in_map.
  - apply filter_In. split; [assumption|apply String.eqb_refl].
Qed.

Lemma Spliced_carried c sels :
  Spliced c sels -> Settled sels ->
  forall M m L2,
    incl c M -> forallb shallow M = true ->
    mapM (visitSelection secondPass_replace m) (normalizeSelections M)
      = Ok L2 ->
    exists L, HasList L2 L /\ Carries L sels.
Proof.
  intros HS Hset.
  induction HS as [c sels Hin|c a nm args ds c' sels Hin _ IH
                   |c tc ds c' sels Hin _ IH];
    intros M m L2 Hincl Hsh Hv.
  - exists L2. split; [apply HasList_here|]. split.
    + intros f Hf. apply fieldsOf_In in Hf.
      assert (Hflat : In (ofField f) (flatten M)).
      { apply flatten_In. exists (Arr sels). split; [auto|]. right. eauto. }
      destruct (merged_In M f Hflat) as [Hm _].
      destruct (mapM_In _ _ _ _ Hv Hm) as (y & Hy & Hin2).
      destruct (secondPass_field _ _ _ Hy) as (f' & -> & Hk).
      rewrite responseKey_merged in Hk.
      * rewrite <- Hk. apply in_map. now apply fieldsOf_In.
      * apply firstSeen_In, in_map. now apply fieldsOf_In.
    + intros s Hs Hnf.
      assert (Hflat : In s (flatten M)).
      { apply flatten_In. exists (Arr sels). split; [auto|]. right. eauto. }
      assert (Hn : In s (normalizeSelections M)).
      { rewrite normalizeSelections_eq. apply in_or_app. left.
        apply filter_In. split; [assumption|]. now rewrite Hnf. }
      destruct (mapM_In _ _ _ _ Hv Hn) as (y & Hy & Hin2).
      now rewrite <- (Settled_image _ _ _ _ Hset Hs Hy).
  - set (f0 := Build_FieldNode a nm args ds (Some c')).
    assert (Hflat : In (ofField f0) (flatten M))
      by (apply flatten_In_node; [apply Hincl, Hin|reflexivity]).
    destruct (merged_In M f0 Hflat) as [Hm Hg].
    destruct (coalesce_selectionSet _ f0 c' Hg eq_refl) as [HC Hsub].
    assert (HshC : forallb shallow
                     (concat (omap selectionSet
                                (group (responseKey f0)
                                   (fieldsOf (flatten M))))) = true).
    { assert (Hs : shallow
                (ofField (coalesce (group (responseKey f0)
                                      (fieldsOf (flatten M))))) = true).
      { apply coalesce_shallow. intros f Hf. apply filter_In in Hf as [Hf _].
        apply fieldsOf_In in Hf. now apply (flatten_nodes M). }
      unfold ofField in Hs. rewrite HC in Hs. exact Hs. }
    destruct (mapM_In _ _ _ _ Hv Hm) as (y & Hy & Hin2).
    destruct m as [|m]; [discriminate|].
    unfold ofField in Hy. rewrite HC in Hy. simpl in Hy.
    destruct (mapM _ _) as [L2'| |] eqn:E in Hy; try discriminate.
    injection Hy as <-.
    destruct (IH Hset _ m L2' Hsub HshC E) as (L & HL & Hcar).
    exists L. split; [|assumption]. eapply HasList_field; eauto.
  - assert (Hflat : In (InlineFragment tc ds c') (flatten M))
      by (apply flatten_In_node; [apply Hincl, Hin|reflexivity]).
    assert (Hn : In (InlineFragment tc ds c') (normalizeSelections M)).
    { rewrite normalizeSelections_eq. apply in_or_app. left.
      apply filter_In. split; [assumption|reflexivity]. }
    destruct (flatten_nodes M Hsh _ Hflat) as [_ Hs]. simpl in Hs.
    destruct (mapM_In _ _ _ _ Hv Hn) as (y & Hy & Hin2).
    destruct m as [|m]; [discriminate|]. simpl in Hy.
    destruct (mapM _ _) as [L2'| |] eqn:E in Hy; try discriminate.
    injection Hy as <-.
    destruct (IH Hset c' m L2' (incl_refl _) Hs E) as (L & HL & Hcar).
    exists L. split; [|assumption]. eapply HasList_inline; eauto.
Qed.

Lemma Visited_Spliced r node sels :
  enter_Field (firstPass_replace r) node = Ok (Replacement sels) ->
  forall s, Visited s node ->
  forall L0 n L1,
    In s L0 -> forallb clean L0 = true ->
    mapM (visitSelection (firstPass_replace r) n) L0 = Ok L1 ->
    Spliced L1 sels.
Proof.
  intros Hcb s HV.
  induction HV as [f|a nm args ds sels0 s f Hds Hin _ IH
                   |tc ds sels0 s f Hin _ IH|items s f Hin _ IH];
    intros L0 n L1 HL0 Hclean H1;
    destruct (mapM_In _ _ _ _ H1 HL0) as (s1 & Hs1 & Hin1);
    (destruct n as [|n]; [discriminate|]);
    rewrite visitSelection_S in Hs1.
  - unfold ofField in Hs1. rewrite FieldNode_eta, Hcb in Hs1.
    injection Hs1 as <-. now apply Spliced_here.
  - rewrite firstPass_replace_plain in Hs1
      by (now rewrite annotated_directives).
    cbn [bind enter_SelectionSet firstPass_replace] in Hs1.
    unfold noSelectionSet in Hs1.
    destruct (mapM _ sels0) as [sels1| |] eqn:E1; try discriminate.
    injection Hs1 as <-.
    rewrite forallb_forall in Hclean. specialize (Hclean _ HL0).
    eapply Spliced_field; [exact Hin1|]. eapply IH; eauto.
  - cbn [bind enter_SelectionSet firstPass_replace] in Hs1.
    unfold noSelectionSet in Hs1.
    destruct (mapM _ sels0) as [sels1| |] eqn:E1; try discriminate.
    injection Hs1 as <-.
    rewrite forallb_forall in Hclean. specialize (Hclean _ HL0).
    eapply Spliced_inline; [exact Hin1|]. eapply IH; eauto.
  - rewrite forallb_forall in Hclean. specialize (Hclean _ HL0).
    discriminate.
Qed.

Lemma selectionsOf_definition d :
  selectionsOf (Some (ADefinition d)) = Ok (selectionsOfDefinition d).
Proof. now destruct d. Qed.

Lemma visit_definition v d out :
  visit (ADefinition d) v = Ok out ->
  exists d', out = ADefinition d'
             /\ visitDefinition v (heightDefinition d) d = Ok d'.
Proof.
  unfold visit. simpl.
  destruct (visitDefinition v _ d) as [d'| |]; try discriminate.
  intros [= <-]. eauto.
Qed.

Lemma replaceDirectivesByFragments_S fuel (entities : Entities) q :
  replaceDirectivesByFragments (S fuel) entities (Some q) =
  let* firstPass :=
    visit q (firstPass_replace (replaceDirectiveByFragment fuel entities)) in
  let* out := visit firstPass secondPass_replace in
  Ok (Some out).
Proof. reflexivity. Qed.

(** The selections resolution hands to replace-mode have been through
    the second pass. *)
Lemma resolved_selections_Settled (entities : Entities) fuel node
    fragment sels :
  cleanEntities entities ->
  replaceDirectiveByFragment fuel entities node = Ok fragment ->
  selectionsOf fragment = Ok sels ->
  Settled sels.
Proof.
  intros Hent. unfold replaceDirectiveByFragment, resolveFragment.
  destruct (getDirectiveType _) as [t| |]; simpl; try discriminate.
  destruct (entities !! t) as [entityType|] eqn:Et; try discriminate.
  destruct (fields entityType !! name node) as [entityField|] eqn:Ef;
    try discriminate.
  destruct (dependencies entityField) as [doc|] eqn:Ed.
  2:{ destruct fuel; simpl; intros [= <-]; discriminate. }
  pose proof (Hent _ _ _ _ _ Et Ef Ed) as Hdoc. unfold cleanQuery in Hdoc.
  destruct (definitions doc) as [|d ds] eqn:Edoc; simpl.
  { destruct fuel; simpl; intros [= <-]; discriminate. }
  simpl in Hdoc. apply andb_true_iff in Hdoc as [Hd _].
  intros Hr Hsel.
  destruct fuel as [|fuel]; [discriminate|].
  rewrite replaceDirectivesByFragments_S in Hr.
  destruct (visit (ADefinition d) _) as [firstPass| |] eqn:E1;
    try discriminate. cbn [bind] in Hr.
  destruct (visit firstPass _) as [out| |] eqn:E2; try discriminate.
  injection Hr as <-.
  assert (Hsh : shallowQuery firstPass = true).
  { apply (replace_firstPass_shallow entities fuel (ADefinition d));
      auto. }
  apply visit_definition in E1 as (d1 & -> & _).
  apply visit_definition in E2 as (d2 & -> & E2).
  rewrite selectionsOf_definition in Hsel. injection Hsel as <-.
  apply visitDefinition_selections in E2.
  unfold visitSelectionSet in E2. simpl in E2, Hsh.
  apply mapM_Forall2 in E2.
  intros s Hs m Hm.
  destruct (Forall2_In_r _ _ _ _ E2 Hs) as (x & Hx & Hxs).
  destruct (normalizeSelections_nodes _ Hsh _ Hx) as [Ha Hb].
  exact (secondPass_fixed _ x s Ha Hb Hxs m Hm).
Qed.

Lemma Definitions_carried r node sels d d1 d2 n m s :
  enter_Field (firstPass_replace r) node = Ok (Replacement sels) ->
  Settled sels ->
  In s (selectionsOfDefinition d) -> Visited s node ->
  forallb clean (selectionsOfDefinition d) = true ->
  forallb shallow (selectionsOfDefinition d1) = true ->
  visitDefinition (firstPass_replace r) n d = Ok d1 ->
  visitDefinition secondPass_replace m d1 = Ok d2 ->
  exists L, HasList (selectionsOfDefinition d2) L /\ Carries L sels.
Proof.
  intros Hcb Hset Hs HV Hc Hsh H1 H2.
  apply visitDefinition_selections in H1, H2.
  pose proof (Visited_Spliced _ _ _ Hcb _ HV _ _ _ Hs Hc H1) as Hsp.
  exact (Spliced_carried _ _ Hsp Hset _ _ _ (incl_refl _) Hsh H2).
Qed.

(** X9: in replace-mode, an annotated field that the first pass visits
    is resolved, and the selections of its resolved dependency reach the
    returned tree: one of its selection lists has a field for every
    response key of the dependency and holds every member of the
    dependency that is not a field. *)
Theorem visited_field_replaced
    (fuel : nat) (entities : Entities) (q out : Query) (node : FieldNode) :
  cleanEntities entities -> cleanQuery q = true ->
  VisitedIn q node -> annotated node = true ->
  replaceDirectivesByFragments (S fuel) entities (Some q) = Ok (Some out) ->
  exists fragment selections,
    replaceDirectiveByFragment fuel entities node = Ok fragment
    /\ selectionsOf fragment = Ok selections
    /\ enter_Field
         (firstPass_replace (replaceDirectiveByFragment fuel entities)) node
       = Ok (Replacement selections)
    /\ exists L, ListIn out L /\ Carries L selections.
Proof.
  intros Hent Hq HV Hann H.
  rewrite replaceDirectivesByFragments_S in H.
  destruct (visit q _) as [firstPass| |] eqn:E1; try discriminate.
  cbn [bind] in H.
  destruct (visit firstPass _) as [out'| |] eqn:E2; try discriminate.
  injection H as <-.
  pose proof (VisitedIn_callback_Ok _ (firstPass_replace_plain _)
                (fun _ => eq_refl) _ _ _ HV E1) as Hok.
  assert (exists fragment selections,
             replaceDirectiveByFragment fuel entities node = Ok fragment
             /\ selectionsOf fragment = Ok selections
             /\ enter_Field
                  (firstPass_replace
                     (replaceDirectiveByFragment fuel entities)) node
                = Ok (Replacement selections))
    as (fragment & selections & Hfr & Hsel & Hcb).
  { simpl in Hok |- *. rewrite Hann in Hok |- *. simpl in Hok |- *.
    destruct (replaceDirectiveByFragment fuel entities node)
      as [fragment| |] eqn:Efr; try discriminate. simpl in Hok |- *.
    destruct (selectionsOf fragment) as [selections| |] eqn:Esel;
      try discriminate.
    exists fragment, selections. repeat split. exact Esel. }
  exists fragment, selections. repeat split; try assumption.
  pose proof (resolved_selections_Settled _ _ _ _ _ Hent Hfr Hsel) as Hset.
  pose proof (replace_firstPass_shallow _ _ _ _ Hent Hq E1) as Hsh.
  unfold visit in E1, E2.
  destruct q as [d|doc]; simpl in E1, HV, Hq.
  - destruct (visitDefinition _ _ d) as [d1| |] eqn:Ed1; try discriminate.
    injection E1 as <-. simpl in E2, Hsh.
    destruct (visitDefinition _ _ d1) as [d2| |] eqn:Ed2; try discriminate.
    injection E2 as <-.
    destruct HV as (s & Hs & HVs).
    exact (Definitions_carried _ _ _ _ _ _ _ _ _ Hcb Hset Hs HVs Hq Hsh
             Ed1 Ed2).
  - destruct (mapM _ _) as [ds1| |] eqn:Ed1; try discriminate.
    injection E1 as <-. simpl in E2, Hsh.
    destruct (mapM _ ds1) as [ds2| |] eqn:Ed2; try discriminate.
    injection E2 as <-.
    destruct HV as (d & s & Hd & Hs & HVs).
    destruct (mapM_In _ _ _ _ Ed1 Hd) as (d1 & Hd1 & Hin1).
    destruct (mapM_In _ _ _ _ Ed2 Hin1) as (d2 & Hd2 & Hin2).
    rewrite forallb_forall in Hq, Hsh.
    destruct (Definitions_carried _ _ _ _ _ _ _ _ _ Hcb Hset Hs HVs
                (Hq d Hd) (Hsh d1 Hin1) Hd1 Hd2) as (L & HL & Hcar).
    exists L. split; [|assumption]. exists d2. split; assumption.
Qed.

Lemma visited_field_replaced_witness :
  exists fragment selections,
    replaceDirectiveByFragment 1 Sample.entities Sample.fullName
      = Ok fragment
    /\ selectionsOf fragment = Ok selections
    /\ exists L,
         ListIn (Sample.operation
                   [Sample.leaf "id"; Sample.leaf "firstName";
                    Sample.leaf "lastName"]) L
         /\ Carries L selections.
Proof.
  destruct (visited_field_replaced 1 Sample.entities Sample.profile
              (Sample.operation
                 [Sample.leaf "id"; Sample.leaf "firstName";
                  Sample.leaf "lastName"])
              Sample.fullName Sample_entities_clean eq_refl)
    as (fragment & selections & H1 & H2 & _ & H3).
  - exists (ofField Sample.fullName).
    split; [right; left; reflexivity|apply Visited_here].
  - reflexivity.
  - reflexivity.
  - exists fragment, selections. auto.
Defined.
